(** * theanalyticsapi: the batching client of [index.js]

    A shallow embedding of the class [TheAnalyticsAPI] (constructor,
    [track], [enqueue], [flush], [_isErrorRetryable]) together with the
    part of the JavaScript run time the class relies on: values, a store
    of objects with aliasing and [Object.assign].

    Conventions of the embedding.
    - Numbers are the integral ones, held as [Z]; text is held as its
      sequence of bytes.
    - Objects live in a store ([Heap]); a value of object type is a
      reference [VRef l], so two references to one object alias.
    - Callbacks are opaque: invoking one is recorded, and whether it
      returns or throws is asked of the environment.
    - What the class calls and does not define ([JSON.stringify], [md5],
      [uuid], the clock, [ms], [remove-trailing-slash],
      [is-retry-allowed], [loosely-validate-event], the callbacks of the
      application) are the fields of an environment [Env]. *)

From Stdlib Require Import ZArith String Ascii List Bool Lia DecimalString.
From stdpp Require Import base tactics option list strings.

Import ListNotations.
Local Open Scope string_scope.
Local Open Scope list_scope.
Local Open Scope Z_scope.

(** ** JavaScript values and the object store *)

Module JS.

Abbreviation loc := nat (only parsing).

Inductive value : Type :=
| VUndef                      (* undefined *)
| VNull                       (* null *)
| VBool (b : bool)
| VNum (n : Z)                (* an integral number *)
| VStr (s : string)
| VDate (t : Z)               (* a Date, by its time value *)
| VFun (id : nat)             (* a function, opaque *)
| VRef (l : loc).             (* an object or an array in the store *)

(** Own enumerable properties of a plain object, kept in insertion
    order. The order is never looked at by the client: properties are
    read by key. *)
Abbreviation props := (list (string * value)) (only parsing).

Inductive cell : Type :=
| CObj (ps : props)
| CArr (elems : list value).

Abbreviation Heap := (list cell) (only parsing).

(** What [axios] rejects with: [error.code] and [error.response], the
    latter present when the collector answered with an error status. *)
Record AxiosResponse : Type := { status : Z; statusText : string }.
Record AxiosError : Type :=
  { code : option string; response : option AxiosResponse }.

Inductive Error : Type :=
| AssertionError (message : string)
| TypeError (message : string)
| NewError (message : string)        (* new Error(message) *)
| Rejected (err : AxiosError)        (* the rejection of axios, as it is *)
| Thrown (v : value).                (* a value that is no object, thrown *)

(** The outcome of running code of the model: a result or an exception.
    [OutOfFuel] is the exhaustion of the recursion budget of the
    reference serializer below; no method of the client produces it
    ([enqueue_in_budget]). *)
Inductive Result (A : Type) : Type :=
| Ok (a : A)
| Throw (e : Error)
| OutOfFuel.
Arguments Ok {A} a.
Arguments Throw {A} e.
Arguments OutOfFuel {A}.

(** [ToBoolean]. *)
Definition truthy (v : value) : bool :=
  match v with
  | VUndef | VNull => false
  | VBool b => b
  | VNum n => negb (Z.eqb n 0)
  | VStr s => negb (String.eqb s "")
  | VDate _ | VFun _ | VRef _ => true
  end.

(** [lodash.isstring] on the values of the model. *)
Definition isString (v : value) : bool :=
  match v with VStr _ => true | _ => false end.

(** [a || b]. *)
Definition or_else (a b : value) : value := if truthy a then a else b.

(** *** Text helpers *)

Definition chr (n : nat) : string := String (ascii_of_nat n) EmptyString.
Definition dquote : string := chr 34.
Definition backslash : string := chr 92.

(** Decimal text of an integer: the key of an array index. *)
Definition decimal (n : Z) : string :=
  NilZero.string_of_int (Z.to_int n).

Definition hex_digit (n : nat) : string :=
  match n with
  | 0%nat => "0" | 1%nat => "1" | 2%nat => "2" | 3%nat => "3"
  | 4%nat => "4" | 5%nat => "5" | 6%nat => "6" | 7%nat => "7"
  | 8%nat => "8" | 9%nat => "9" | 10%nat => "a" | 11%nat => "b"
  | 12%nat => "c" | 13%nat => "d" | 14%nat => "e" | _ => "f"
  end.

(** One character of [QuoteJSONString]. *)
Definition escape_char (a : ascii) : string :=
  let n := nat_of_ascii a in
  if (n =? 34)%nat then backslash +:+ dquote
  else if (n =? 92)%nat then backslash +:+ backslash
  else if (n =? 8)%nat then backslash +:+ "b"
  else if (n =? 12)%nat then backslash +:+ "f"
  else if (n =? 10)%nat then backslash +:+ "n"
  else if (n =? 13)%nat then backslash +:+ "r"
  else if (n =? 9)%nat then backslash +:+ "t"
  else if (n <? 32)%nat then
    backslash +:+ "u00" +:+ hex_digit (n / 16) +:+ hex_digit (n mod 16)
  else String a EmptyString.

Fixpoint escape (s : string) : string :=
  match s with
  | EmptyString => EmptyString
  | String a s' => escape_char a +:+ escape s'
  end.

Definition QuoteJSONString (s : string) : string :=
  dquote +:+ escape s +:+ dquote.

(** *** The store *)

(** A location that was never allocated reads as an empty object. *)
Definition lookup_cell (h : Heap) (l : loc) : cell :=
  default (CObj []) (h !! l).

Definition alloc (c : cell) (h : Heap) : loc * Heap :=
  (length h, h ++ [c]).

Fixpoint index_props (i : nat) (vs : list value) : props :=
  match vs with
  | [] => []
  | v :: vs' => (decimal (Z.of_nat i), v) :: index_props (S i) vs'
  end.

Fixpoint char_props (i : nat) (s : string) : props :=
  match s with
  | EmptyString => []
  | String a s' =>
      (decimal (Z.of_nat i), VStr (String a EmptyString))
        :: char_props (S i) s'
  end.

Definition cell_props (c : cell) : props :=
  match c with
  | CObj ps => ps
  | CArr vs => index_props 0 vs
  end.

(** The own enumerable properties [Object.assign] copies from a source:
    those of an object, the elements of an array, the characters of a
    text; nothing for [undefined], [null] and the other primitives. *)
Definition own_props (h : Heap) (v : value) : props :=
  match v with
  | VRef l => cell_props (lookup_cell h l)
  | VStr s => char_props 0 s
  | _ => []
  end.

Fixpoint assoc (k : string) (ps : props) : option value :=
  match ps with
  | [] => None
  | (k', v) :: ps' => if String.eqb k k' then Some v else assoc k ps'
  end.

(** [o[k] = v] on the property list: an existing key keeps its place. *)
Fixpoint put (k : string) (v : value) (ps : props) : props :=
  match ps with
  | [] => [(k, v)]
  | (k', v') :: ps' =>
      if String.eqb k k' then (k, v) :: ps' else (k', v') :: put k v ps'
  end.

(** [Object.assign(target, source)] on property lists: each property of
    the source is set on the target. Setting [__proto__] reaches the
    setter of [Object.prototype] and makes no property of the target. *)
Definition assign (target source : props) : props :=
  fold_left (fun t kv => if String.eqb (fst kv) "__proto__" then t
                         else put (fst kv) (snd kv) t) source target.

(** [o.k] for the object at [l], of its own properties; an absent
    property reads [undefined]. *)
Definition get_prop (h : Heap) (l : loc) (k : string) : value :=
  default VUndef (assoc k (cell_props (lookup_cell h l))).

(** [o.k = v] for the plain object at [l]. *)
Definition set_prop (h : Heap) (l : loc) (k : string) (v : value) : Heap :=
  match lookup_cell h l with
  | CObj ps => <[l := CObj (put k v ps)]> h
  | CArr _ => h
  end.

(** *** A reference serializer

    [JSON.stringify] itself is a service of the environment ([Env]), and
    nothing proved of the client depends on how it forms its text. The
    serializer of this section is the instance the examples run on. It
    follows [SerializeJSONProperty] on the values of the model: plain
    objects and arrays of data, without [toJSON] methods or getters. *)

Section Stringify.

(** [Date.prototype.toISOString], by time value. *)
Variable toISOString : Z -> string.

(** [Number::toString] beyond the safe integers, where JavaScript rounds
    to the shortest digits that read back as the number and writes an
    exponent from 1e21 on. *)
Variable unsafe_toString : Z -> string.

(** [Number::toString] of an integral number: a safe integer is written
    with all its digits. *)
Definition ref_number (n : Z) : string :=
  if Z.abs n <? 2 ^ 53 then decimal n else unsafe_toString n.

(** The array index a key is, if it is one: the canonical decimal text
    of an integer from 0 to 2^32 - 2. *)
Definition array_index (k : string) : option Z :=
  match NilZero.int_of_string k with
  | Some i =>
      let n := Z.of_int i in
      if String.eqb (decimal n) k && (0 <=? n) && (n <? 2 ^ 32 - 1)
      then Some n else None
  | None => None
  end.

Fixpoint insert_by_index (n : Z) (kv : string * value)
    (l : list (Z * (string * value))) : list (Z * (string * value)) :=
  match l with
  | [] => [(n, kv)]
  | (m, x) :: l' =>
      if n <? m then (n, kv) :: l else (m, x) :: insert_by_index n kv l'
  end.

Fixpoint indexed (ps : props) : list (Z * (string * value)) :=
  match ps with
  | [] => []
  | kv :: ps' =>
      match array_index (fst kv) with
      | Some n => insert_by_index n kv (indexed ps')
      | None => indexed ps'
      end
  end.

(** The order in which the properties of an object are enumerated
    ([OrdinaryOwnPropertyKeys]): those whose key is an array index first,
    by ascending index, then the others in the order they were added. *)
Definition enumeration (ps : props) : props :=
  map snd (indexed ps)
    ++ filter (fun kv => negb (bool_decide (is_Some (array_index (fst kv))))) ps.

Definition ref_circular : Error :=
  TypeError "Converting circular structure to JSON".

(** The members of [SerializeJSONObject], given the serializer [ser] of a
    property value: a property whose value serializes to [undefined] is
    left out. *)
Fixpoint ref_members (ser : value -> Result (option string)) (ps : props)
  : Result (list string) :=
  match ps with
  | [] => Ok []
  | (k, x) :: ps' =>
      match ser x with
      | Ok None => ref_members ser ps'
      | Ok (Some s) =>
          match ref_members ser ps' with
          | Ok r => Ok ((QuoteJSONString k +:+ ":" +:+ s) :: r)
          | Throw e => Throw e
          | OutOfFuel => OutOfFuel
          end
      | Throw e => Throw e
      | OutOfFuel => OutOfFuel
      end
  end.

(** The elements of [SerializeJSONArray]: [undefined] is written [null]. *)
Fixpoint ref_elements (ser : value -> Result (option string)) (vs : list value)
  : Result (list string) :=
  match vs with
  | [] => Ok []
  | x :: vs' =>
      match ser x with
      | Ok o =>
          match ref_elements ser vs' with
          | Ok r => Ok (default "null" o :: r)
          | Throw e => Throw e
          | OutOfFuel => OutOfFuel
          end
      | Throw e => Throw e
      | OutOfFuel => OutOfFuel
      end
  end.

Definition wrap (open close : string) (r : Result (list string))
  : Result (option string) :=
  match r with
  | Ok items => Ok (Some (open +:+ String.concat "," items +:+ close))
  | Throw e => Throw e
  | OutOfFuel => OutOfFuel
  end.

(** [ref_serialize]: [Ok None] is [undefined]. [stack] holds the
    objects being serialized, as in the standard's cycle check. *)
Fixpoint ref_serialize (h : Heap) (fuel : nat) (stack : list loc)
    (v : value) {struct fuel} : Result (option string) :=
  match v with
  | VUndef | VFun _ => Ok None
  | VNull => Ok (Some "null")
  | VBool b => Ok (Some (if b then "true" else "false"))
  | VNum n => Ok (Some (ref_number n))
  | VStr s => Ok (Some (QuoteJSONString s))
  | VDate t => Ok (Some (QuoteJSONString (toISOString t)))
  | VRef l =>
      if existsb (Nat.eqb l) stack then Throw ref_circular
      else
        match fuel with
        | O => OutOfFuel
        | S fuel' =>
            let ser := ref_serialize h fuel' (l :: stack) in
            match lookup_cell h l with
            | CObj ps => wrap "{" "}" (ref_members ser (enumeration ps))
            | CArr vs => wrap "[" "]" (ref_elements ser vs)
            end
        end
  end.

(** The serializer as [JSON.stringify(v)]: [inl e] when it throws [e],
    [inr None] when it returns [undefined]. Nesting is at most one deeper
    than the number of allocated objects, so the budget [S (length h)] is
    never exhausted ([ref_stringify_in_budget]). *)
Definition ref_stringify (h : Heap) (v : value) : Error + option string :=
  match ref_serialize h (S (length h)) [] v with
  | Ok o => inr o
  | Throw e => inl e
  | OutOfFuel => inl ref_circular
  end.

End Stringify.

End JS.

Import JS.

(** ** The environment *)

(** [version] of [package.json]. *)
Definition version : string := "1.0.8".

(** ** The client *)

Inductive Callback : Type :=
| noop
| Fn (id : nat).

(** A queue item [{ message, callback }]. *)
Record Entry : Type := { message : value; callback : Callback }.

Record TheAnalyticsAPI : Type := {
  queue : list Entry;
  writeKey : value;
  host : string;
  timeout : value;
  flushAt : Z;
  flushInterval : Z;
  flushed : bool;
  enable : bool;
  timer : option nat          (* [None]: [undefined] or [null] *)
}.

(** The [options] of the constructor; [None] is an absent option. *)
Record Options : Type := {
  opt_host : option string;
  opt_timeout : value;
  opt_flushAt : option Z;
  opt_flushInterval : option Z;
  opt_enable : value;
  opt_retryCount : option Z
}.

Definition no_options : Options :=
  {| opt_host := None; opt_timeout := VUndef; opt_flushAt := None;
     opt_flushInterval := None; opt_enable := VUndef;
     opt_retryCount := None |}.

(** The body [data] of a request and the request handed to [axios]. *)
Record Data : Type := { batch : list value; timestamp : value; sentAt : value }.

Record Request : Type := {
  method : string;
  url : string;
  data : Data;
  headers : list (string * value);
  req_timeout : option value
}.

(** What a call leaves with the run time. [Axios req callbacks callback]
    is a request in flight together with what its continuation [done]
    closes over. *)
Inductive Effect : Type :=
| SetImmediate (cb : Callback)
| SetTimeout (handle : nat) (delay : Z)     (* of [this.flush.bind(this)] *)
| ClearTimeout (handle : nat)
| Axios (req : Request) (callbacks : list Callback) (callback : Callback).

Record World : Type := {
  heap : Heap;
  this : TheAnalyticsAPI;
  trace : list Effect;
  handles : nat               (* timers created so far *)
}.

(** *** State and exceptions *)

Definition M (A : Type) : Type := World -> Result (A * World).

#[export] Instance M_ret : MRet M := fun A a w => Ok (a, w).
#[export] Instance M_bind : MBind M := fun A B f m w =>
  match m w with
  | Ok (a, w') => f a w'
  | Throw e => Throw e
  | OutOfFuel => OutOfFuel
  end.

Definition throw {A : Type} (e : Error) : M A := fun _ => Throw e.
Definition lift {A : Type} (r : Result A) : M A := fun w =>
  match r with
  | Ok a => Ok (a, w)
  | Throw e => Throw e
  | OutOfFuel => OutOfFuel
  end.
Definition get_this : M TheAnalyticsAPI := fun w => Ok (this w, w).
Definition get_heap : M Heap := fun w => Ok (heap w, w).
Definition set_this (c : TheAnalyticsAPI) : M unit := fun w =>
  Ok (tt, {| heap := heap w; this := c; trace := trace w; handles := handles w |}).
Definition set_heap (h : Heap) : M unit := fun w =>
  Ok (tt, {| heap := h; this := this w; trace := trace w; handles := handles w |}).
Definition emit (e : Effect) : M unit := fun w =>
  Ok (tt, {| heap := heap w; this := this w; trace := trace w ++ [e];
             handles := handles w |}).

Definition with_queue (q : list Entry) (c : TheAnalyticsAPI) : TheAnalyticsAPI :=
  {| queue := q; writeKey := writeKey c; host := host c; timeout := timeout c;
     flushAt := flushAt c; flushInterval := flushInterval c;
     flushed := flushed c; enable := enable c; timer := timer c |}.
Definition with_flushed (b : bool) (c : TheAnalyticsAPI) : TheAnalyticsAPI :=
  {| queue := queue c; writeKey := writeKey c; host := host c; timeout := timeout c;
     flushAt := flushAt c; flushInterval := flushInterval c;
     flushed := b; enable := enable c; timer := timer c |}.
Definition with_timer (t : option nat) (c : TheAnalyticsAPI) : TheAnalyticsAPI :=
  {| queue := queue c; writeKey := writeKey c; host := host c; timeout := timeout c;
     flushAt := flushAt c; flushInterval := flushInterval c;
     flushed := flushed c; enable := enable c; timer := t |}.

(** *** Run-time services *)

Definition setImmediate (cb : Callback) : M unit := emit (SetImmediate cb).

(** [setTimeout(this.flush.bind(this), delay)]: a fresh handle. *)
Definition setTimeout (delay : Z) : M nat := fun w =>
  Ok (handles w,
      {| heap := heap w; this := this w;
         trace := trace w ++ [SetTimeout (handles w) delay];
         handles := S (handles w) |}).

Definition clearTimeout (handle : nat) : M unit := emit (ClearTimeout handle).

(** An object literal, or the fresh target of [Object.assign]. *)
Definition new_object (ps : props) : M loc := fun w =>
  let (l, h) := alloc (CObj ps) (heap w) in
  Ok (l, {| heap := h; this := this w; trace := trace w; handles := handles w |}).

(** [Object.assign(<fresh object with properties base>, source)]. *)
Definition Object_assign (base : props) (source : value) : M loc :=
  h ← get_heap;
  new_object (assign base (own_props h source)).

Definition Get (l : loc) (k : string) : M value :=
  h ← get_heap; mret (get_prop h l k).

Definition Set_ (l : loc) (k : string) (v : value) : M unit :=
  h ← get_heap; set_heap (set_prop h l k v).

(** [array.splice(0, count)]: the removed front and what stays. *)
Definition splice0 {A : Type} (count : Z) (l : list A) : list A * list A :=
  (take (Z.to_nat count) l, drop (Z.to_nat count) l).

(** A call [cb(err)] or [cb(err, data)]; [None] is an absent argument. *)
Inductive Invocation : Type :=
| Invoke (cb : Callback) (err : option Error) (data : option Data).

Record Env : Type := {
  now : Z;                             (* the time value of [new Date()] *)
  uuid : string;                       (* [uuid()] *)
  md5 : string -> string;
  nodeVersion : string;                (* [process.versions.node] *)
  (* [JSON.stringify(v)] in a store: [inl e] when it throws [e] (a cycle,
     a BigInt, a throwing [toJSON] or getter), [inr None] when it returns
     [undefined]; it is taken to leave the store as it is *)
  JSON_stringify : Heap -> value -> Error + option string;
  ms : string -> value;
  removeSlash : string -> string;
  isRetryAllowed : AxiosError -> bool; (* the package [is-retry-allowed] *)
  (* [looselyValidate(message, type)]: [Some e] when it throws [e] *)
  looselyValidate : Heap -> value -> value -> option Error;
  (* what a callback does when it is called, [past] being the calls made
     before it for the same request: [Some e] when it throws [e] *)
  invoke : list Invocation -> Invocation -> option Error
}.

(** ** The class [TheAnalyticsAPI] *)

Section Class.

Variable E : Env.

(** [x || d] on an optional number: absent and [0] are falsy. *)
Definition num_or (x : option Z) (d : Z) : Z :=
  match x with
  | Some n => if Z.eqb n 0 then d else n
  | None => d
  end.

(** [s || d] on an optional text: absent and the empty text are falsy. *)
Definition text_or (x : option string) (d : string) : string :=
  match x with
  | Some s => if String.eqb s "" then d else s
  | None => d
  end.

(** [Math.max(x, 1)]; [None] is [NaN], the result for an absent [x]. *)
Definition Math_max_1 (x : option Z) : option Z :=
  match x with
  | Some n => Some (Z.max n 1)
  | None => None
  end.

Definition default_host : string :=
  "https://tanalytics-collector-api-6wyfjoyn3q-uc.a.run.app".

(** [constructor (writeKey, options)], lines 32-48. [this.timer] is not
    assigned, so it starts as [undefined]. *)
Definition constructor (writeKey : value) (options : option Options)
  : Result TheAnalyticsAPI :=
  let options := default no_options options in
  if negb (truthy writeKey) then
    Throw (AssertionError "You must pass your project's write key.")
  else
    Ok {| queue := [];
          writeKey := writeKey;
          host := removeSlash E (text_or (opt_host options) default_host);
          timeout := or_else (opt_timeout options) (VBool false);
          flushAt := num_or (Math_max_1 (opt_flushAt options)) 20;
          flushInterval := num_or (opt_flushInterval options) 10000;
          flushed := false;
          enable := match opt_enable options with VBool b => b | _ => true end;
          timer := None |}.

(** The configuration handed to [axiosRetry], lines 50-54; [retryDelay]
    is [axiosRetry.exponentialDelay]. *)
Record RetryConfig : Type :=
  { retries : Z; retryCondition : AxiosError -> bool }.

(** [isNetworkError] of the package [axios-retry], which line 216 calls:
    no response, an error code, not the code [axios] gives a request it
    aborted on its time-out, and a code [is-retry-allowed] lets through. *)
Definition isNetworkError (error : AxiosError) : bool :=
  match response error with Some _ => false | None => true end
  && match code error with
     | Some c => negb (String.eqb c "")
     | None => false
     end
  && negb (match code error with
           | Some c => String.eqb c "ECONNABORTED"
           | None => false
           end)
  && isRetryAllowed E error.

(** [_isErrorRetryable (error)], lines 214-236. *)
Definition _isErrorRetryable (error : AxiosError) : bool :=
  if isNetworkError error then true
  else
    match response error with
    | None => false
    | Some r =>
        if (500 <=? status r) && (status r <=? 599) then true
        else if status r =? 429 then true
        else false
    end.

Definition axiosRetry_config (options : option Options) : RetryConfig :=
  {| retries := num_or (opt_retryCount (default no_options options)) 3;
     retryCondition := _isErrorRetryable |}.

(** [flush (callback)], lines 152-202: up to the call of [axios]. *)
Definition flush (cb : option Callback) : M unit :=
  let cb := default noop cb in
  c ← get_this;
  if negb (enable c) then setImmediate cb
  else
    match timer c with
    | Some t => clearTimeout t;; set_this (with_timer None c)
    | None => mret tt
    end;;
    c ← get_this;
    if (length (queue c) =? 0)%nat then setImmediate cb
    else
      let (items, rest) := splice0 (flushAt c) (queue c) in
      set_this (with_queue rest c);;
      let callbacks := map callback items in
      let messages := map message items in
      let data := {| batch := messages;
                     timestamp := VDate (now E);
                     sentAt := VDate (now E) |} in
      let headers :=
        [("user-agent", VStr ("theanalyticsapi-client-node/" +:+ version));
         ("api_key", writeKey c)] in
      let req := {| method := "POST";
                    url := host c +:+ "/api/track/events";
                    data := data;
                    headers := headers;
                    req_timeout :=
                      if truthy (timeout c) then
                        Some (match timeout c with
                              | VStr s => ms E s
                              | t => t
                              end)
                      else None |} in
      emit (Axios req callbacks cb).

(** [md5(v)]: the library rejects [undefined] and [null]. *)
Definition md5_of (v : value) : M string :=
  match v with
  | VStr s => mret (md5 E s)
  | _ => throw (NewError "Illegal argument undefined")
  end.

(** [JSON.stringify(v)] as a value: text, or [undefined]. *)
Definition stringify (v : value) : M value := fun w =>
  match JSON_stringify E (heap w) v with
  | inl e => Throw e
  | inr (Some s) => Ok (VStr s, w)
  | inr None => Ok (VUndef, w)
  end.

(** The flush triggers at the end of [enqueue], lines 130-142. *)
Definition flush_triggers : M unit :=
  c ← get_this;
  if negb (flushed c) then
    set_this (with_flushed true c);;
    flush None
  else
    c ← get_this;
    (if Z.of_nat (length (queue c)) >=? flushAt c
     then flush None
     else mret tt);;
    c ← get_this;
    if negb (flushInterval c =? 0) && negb (bool_decide (is_Some (timer c)))
    then t ← setTimeout (flushInterval c);
         c ← get_this;
         set_this (with_timer (Some t) c)
    else mret tt.

(** [enqueue (type, message, callback)], lines 89-143. *)
Definition enqueue (type message : value) (cb : option Callback) : M unit :=
  let cb := default noop cb in
  c ← get_this;
  if negb (enable c) then setImmediate cb
  else
    message ← Object_assign [] message;
    Set_ message "type" type;;
    library ← new_object [("name", VStr "theanalyticsapi");
                          ("version", VStr version)];
    context ← Get message "context";
    context ← Object_assign [("library", VRef library)] context;
    Set_ message "context" (VRef context);;
    _metadata ← Get message "_metadata";
    _metadata ← Object_assign [("nodeVersion", VStr (nodeVersion E))] _metadata;
    Set_ message "_metadata" (VRef _metadata);;
    timestamp ← Get message "timestamp";
    (if negb (truthy timestamp)
     then Set_ message "timestamp" (VDate (now E))
     else mret tt);;
    messageId ← Get message "messageId";
    (if negb (truthy messageId)
     then json ← stringify (VRef message);
          hash ← md5_of json;
          Set_ message "messageId"
               (VStr ("node-" +:+ hash +:+ "-" +:+ uuid E))
     else mret tt);;
    anonymousId ← Get message "anonymousId";
    (if truthy anonymousId && negb (isString anonymousId)
     then s ← stringify anonymousId; Set_ message "anonymousId" s
     else mret tt);;
    userId ← Get message "userId";
    (if truthy userId && negb (isString userId)
     then s ← stringify userId; Set_ message "userId" s
     else mret tt);;
    c ← get_this;
    set_this (with_queue (queue c ++ [{| message := VRef message;
                                         callback := cb |}]) c);;
    flush_triggers.

(** [_validate (message, type)], lines 57-63: rethrows what
    [looselyValidate] throws. *)
Definition _validate (message type : value) : M unit :=
  h ← get_heap;
  match looselyValidate E h message type with
  | Some e => throw e
  | None => mret tt
  end.

(** [track (message, callback)], lines 73-77; the result [this] is the
    client of the world returned. *)
Definition track (message : value) (cb : option Callback) : M unit :=
  _validate message (VStr "track");;
  enqueue (VStr "track") message cb.

(** *** Completion of a request, lines 178-181 and 202-211 *)

(** Calls made one after the other, as long as none throws: the calls
    made and, if one threw, what it threw. *)
Fixpoint call_each (past : list Invocation) (calls : list Invocation)
  : list Invocation * option Error :=
  match calls with
  | [] => ([], None)
  | c :: rest =>
      match invoke E past c with
      | Some e => ([c], Some e)
      | None =>
          let (made, thrown) := call_each (past ++ [c]) rest in
          (c :: made, thrown)
      end
  end.

(** [done], lines 178-181: every entry callback, then the flush
    callback; an exception of a callback ends it. *)
Definition done (past : list Invocation) (callbacks : list Callback)
    (cb : Callback) (data : Data) (err : option Error)
  : list Invocation * option Error :=
  call_each past (map (fun callback => Invoke callback err None) callbacks
                    ++ [Invoke cb err (Some data)]).

(** The handler of [.then], line 203. *)
Definition on_fulfilled (callbacks : list Callback) (cb : Callback)
    (data : Data) : list Invocation * option Error :=
  done [] callbacks cb data None.

(** [err.response] of whatever reaches the handler of [.catch]: the
    errors the run time makes and the primitive values have none. *)
Definition error_response (err : Error) : option AxiosResponse :=
  match err with
  | Rejected e => response e
  | _ => None
  end.

(** Reading a property of [undefined] or [null] throws. *)
Definition no_properties (err : Error) : option Error :=
  match err with
  | Thrown VUndef =>
      Some (TypeError "Cannot read properties of undefined (reading 'response')")
  | Thrown VNull =>
      Some (TypeError "Cannot read properties of null (reading 'response')")
  | _ => None
  end.

(** The handler of [.catch], lines 204-211. *)
Definition on_rejected (past : list Invocation) (callbacks : list Callback)
    (cb : Callback) (data : Data) (err : Error)
  : list Invocation * option Error :=
  match no_properties err with
  | Some e => ([], Some e)
  | None =>
      match error_response err with
      | Some r =>
          let error := NewError (statusText r) in
          done past callbacks cb data (Some error)
      | None => done past callbacks cb data (Some err)
      end
  end.

(** [axios(req).then(...).catch(...)], lines 202-211, once [axios]
    settles ([None]: fulfilled): the calls made and what is left
    unhandled. An exception thrown under [.then] reaches [.catch] too. *)
Definition settle_request (callbacks : list Callback) (cb : Callback)
    (data : Data) (outcome : option AxiosError)
  : list Invocation * option Error :=
  match outcome with
  | None =>
      match on_fulfilled callbacks cb data with
      | (made, None) => (made, None)
      | (made, Some e) =>
          let (again, thrown) := on_rejected made callbacks cb data e in
          (made ++ again, thrown)
      end
  | Some err => on_rejected [] callbacks cb data (Rejected err)
  end.

(** What the run time does with an effect once it is due, as the calls
    of callbacks it makes: an immediate calls its callback without
    arguments; a request settles with the outcome of [axios]. *)
Definition settle (e : Effect) (outcome : option AxiosError) : list Invocation :=
  match e with
  | SetImmediate cb => [Invoke cb None None]
  | Axios req callbacks cb =>
      fst (settle_request callbacks cb (data req) outcome)
  | SetTimeout _ _ | ClearTimeout _ => []
  end.

End Class.

(** A freshly constructed client in a store [h]. *)
Definition boot (h : Heap) (c : TheAnalyticsAPI) : World :=
  {| heap := h; this := c; trace := []; handles := 0 |}.

(** One interaction with the client: a public call that returns, a timer
    that fires, or the application changing its own objects. The clock,
    [uuid] and the other services may answer differently each time. *)
Inductive step : World -> World -> Prop :=
| step_track E m cb w w' :
    track E m cb w = Ok (tt, w') -> step w w'
| step_enqueue E ty m cb w w' :
    enqueue E ty m cb w = Ok (tt, w') -> step w w'
| step_flush E cb w w' :
    flush E cb w = Ok (tt, w') -> step w w'
| step_timer E t w w' :
    timer (this w) = Some t -> flush E None w = Ok (tt, w') -> step w w'
| step_store h w :
    (length (heap w) <= length h)%nat ->
    step w {| heap := h; this := this w; trace := trace w;
              handles := handles w |}.

Inductive steps : World -> World -> Prop :=
| steps_refl w : steps w w
| steps_next w1 w2 w3 : steps w1 w2 -> step w2 w3 -> steps w1 w3.

(** ** Well-formed stores *)

(** A reference is allocated when it points into the store. *)
Definition allocated (h : Heap) (v : value) : bool :=
  match v with
  | VRef l => (l <? length h)%nat
  | _ => true
  end.

(** A store is closed when every reference kept in it is allocated: no
    object of the application points outside the store. *)
Definition closed (h : Heap) : bool :=
  forallb (fun c => forallb (fun kv => allocated h (snd kv)) (cell_props c)) h.

(** An object has each key once. *)
Definition unique_keys (ps : props) : Prop := NoDup (map fst ps).

(** [v[k]] for an own enumerable property [k] of a value [v]. *)
Definition field (h : Heap) (v : value) (k : string) : value :=
  default VUndef (assoc k (own_props h v)).

(** ** Vocabulary of the statements *)

(** The object literal [{ name, version }] of line 99. *)
Definition library_props : props :=
  [("name", VStr "theanalyticsapi"); ("version", VStr version)].

(** The client after [this.queue.push({ message, callback })]. *)
Definition pushed (l : loc) (cb : option Callback) (c : TheAnalyticsAPI)
  : TheAnalyticsAPI :=
  with_queue (queue c ++ [{| message := VRef l; callback := default noop cb |}]) c.

(** What [JSON.stringify] returned, as a value: text, or [undefined]. *)
Definition text_value (o : option string) : value :=
  match o with
  | Some s => VStr s
  | None => VUndef
  end.

(** [JSON.stringify] looks at the value it is given and at the objects
    that value reaches: objects allocated later change nothing. *)
Definition local_stringify (E : Env) : Prop :=
  forall (h cs : Heap) (v : value),
    closed h = true -> allocated h v = true ->
    JSON_stringify E (h ++ cs) v = JSON_stringify E h v.

(** What lines 121-126 do to the property [k] of the copy, whose
    properties are [p0] at first and [pf] in the end. *)
Definition coerced (E : Env) (h : Heap) (p0 pf : props) (k : string) : Prop :=
  let v := default VUndef (assoc k p0) in
  if truthy v && negb (isString v)
  then exists cs o, JSON_stringify E (h ++ cs) v = inr o
                    /\ assoc k pf = Some (text_value o)
  else assoc k pf = assoc k p0.

(** What lines 159-162 leave with the run time. *)
Definition clear_effects (t : option nat) : list Effect :=
  match t with
  | Some handle => [ClearTimeout handle]
  | None => []
  end.

(** The request of lines 172-200 for the client [c] and the items taken
    from its queue. *)
Definition request_for (E : Env) (c : TheAnalyticsAPI) (items : list Entry)
  : Request :=
  {| method := "POST";
     url := host c +:+ "/api/track/events";
     data := {| batch := map message items;
                timestamp := VDate (now E);
                sentAt := VDate (now E) |};
     headers :=
       [("user-agent", VStr ("theanalyticsapi-client-node/" +:+ version));
        ("api_key", writeKey c)];
     req_timeout :=
       if truthy (timeout c) then
         Some (match timeout c with VStr s => ms E s | t => t end)
       else None |}.

(** Lines 140-142: arm the timer when an interval is set and none is
    pending. *)
Definition arm (w : World) : World :=
  if negb (flushInterval (this w) =? 0)
     && negb (bool_decide (is_Some (timer (this w))))
  then {| heap := heap w;
          this := with_timer (Some (handles w)) (this w);
          trace := trace w ++ [SetTimeout (handles w) (flushInterval (this w))];
          handles := S (handles w) |}
  else w.

Definition set_flushed (w : World) : World :=
  {| heap := heap w; this := with_flushed true (this w); trace := trace w;
     handles := handles w |}.

(** The options fixed by the constructor. *)
Definition same_config (c c' : TheAnalyticsAPI) : Prop :=
  writeKey c' = writeKey c /\ host c' = host c /\ timeout c' = timeout c
  /\ flushAt c' = flushAt c /\ flushInterval c' = flushInterval c
  /\ enable c' = enable c.

(** Every request issued so far carries the write key of the client. *)
Definition requests_keyed (w : World) : Prop :=
  forall req cbs cb, In (Axios req cbs cb) (trace w) ->
  assoc "api_key" (headers req) = Some (writeKey (this w)).

(** A record has left the Enricher when it sits in the queue or in the
    batch of a request. *)
Definition stored (w : World) (r : value) : Prop :=
  In r (map message (queue (this w)))
  \/ exists req cbs cb, In (Axios req cbs cb) (trace w)
                        /\ In r (batch (data req)).

(** ** A session, for the examples *)

(** A validator in the manner of [loosely-validate-event]: an event needs
    an identity and, for [track], an event name. *)
Definition demo_identity_error : Error :=
  AssertionError ("You must pass either an " +:+ dquote +:+ "anonymousId"
                  +:+ dquote +:+ " or a " +:+ dquote +:+ "userId" +:+ dquote
                  +:+ ".").

Definition demo_event_error : Error :=
  AssertionError ("You must pass an " +:+ dquote +:+ "event" +:+ dquote +:+ ".").

Definition demo_validate (h : Heap) (m ty : value) : option Error :=
  if truthy (field h m "anonymousId") || truthy (field h m "userId") then
    if truthy (field h m "event") then None else Some demo_event_error
  else Some demo_identity_error.

(** Stand-ins for the external services. *)
Definition demo_env : Env :=
  {| now := 1700000000000;
     uuid := "3b241101-e2bb-4255-8caf-4136c566a962";
     md5 := fun s => "md5:" +:+ s;
     nodeVersion := "18.19.0";
     JSON_stringify := ref_stringify (fun t => "ms:" +:+ decimal t)
                                     (fun n => "about:" +:+ decimal n);
     ms := fun _ => VNum 1000;
     removeSlash := fun s => s;
     isRetryAllowed := fun e =>
       match code e with
       | Some c => negb (String.eqb c "ENOTFOUND")
       | None => true
       end;
     looselyValidate := demo_validate;
     invoke := fun _ _ => None |}.

(** The application's objects: an event whose [userId] is a number and
    whose [anonymousId] is [0], and the context it points to. *)
Definition demo_store : Heap :=
  [CObj [("event", VStr "Signup"); ("userId", VNum 42);
         ("anonymousId", VNum 0); ("context", VRef 1%nat)];
   CObj [("ip", VStr "10.0.0.1"); ("library", VStr "mine")]].

Definition demo_client : TheAnalyticsAPI :=
  {| queue := []; writeKey := VStr "write-key"; host := default_host;
     timeout := VBool false; flushAt := 20; flushInterval := 10000;
     flushed := false; enable := true; timer := None |}.

Definition demo_options_off : Options :=
  {| opt_host := None; opt_timeout := VUndef; opt_flushAt := None;
     opt_flushInterval := None; opt_enable := VBool false;
     opt_retryCount := None |}.

Definition demo_client_off : TheAnalyticsAPI :=
  {| queue := []; writeKey := VStr "write-key"; host := default_host;
     timeout := VBool false; flushAt := 20; flushInterval := 10000;
     flushed := false; enable := false; timer := None |}.


Definition after (r : Result (unit * World)) (w : World) : World :=
  match r with
  | Ok (_, w') => w'
  | _ => w
  end.

Definition demo_w0 : World := boot demo_store demo_client.

(** After the first enqueue of the event, and after a second one. *)
Definition demo_w1 : World :=
  Eval vm_compute in
    after (enqueue demo_env (VStr "track") (VRef 0%nat) (Some (Fn 1)) demo_w0)
          demo_w0.

Definition demo_w2 : World :=
  Eval vm_compute in
    after (enqueue demo_env (VStr "track") (VRef 0%nat) (Some (Fn 2)) demo_w1)
          demo_w1.

Definition demo_w_off : World := boot demo_store demo_client_off.

Fixpoint distinct (ks : list string) : bool :=
  match ks with
  | [] => true
  | k :: ks' => negb (existsb (String.eqb k) ks') && distinct ks'
  end.

(** The calls [done] is to make for an error: every entry callback,
    then the flush callback with the batch. *)
Definition broadcast (callbacks : list Callback) (cb : Callback)
    (data : Data) (err : option Error) : list Invocation :=
  map (fun callback => Invoke callback err None) callbacks
    ++ [Invoke cb err (Some data)].

(** ** Vocabulary of the session properties *)

(** The records sent so far, in the order they left: the batches of the
    requests of a trace, one after the other. *)
Fixpoint delivered (t : list Effect) : list value :=
  match t with
  | [] => []
  | Axios req _ _ :: t' => batch (data req) ++ delivered t'
  | _ :: t' => delivered t'
  end.

(** The records waiting in the queue, oldest first. *)
Definition queued (w : World) : list value := map message (queue (this w)).

(** The timers the run time holds after a trace: armed and not cleared. *)
Definition timer_effect (p : list nat) (e : Effect) : list nat :=
  match e with
  | SetTimeout handle _ => p ++ [handle]
  | ClearTimeout handle => filter (fun x => negb (Nat.eqb x handle)) p
  | _ => p
  end.

Definition pending_timers (t : list Effect) : list nat :=
  fold_left timer_effect t [].

Definition option_list {A : Type} (o : option A) : list A :=
  match o with
  | Some a => [a]
  | None => []
  end.

Definition is_immediate (e : Effect) : Prop :=
  match e with
  | SetImmediate _ => True
  | _ => False
  end.

(** A request of the trace is one [flush] builds for the client [c] from
    between one and [flushAt] queue items. *)
Definition request_ok (c : TheAnalyticsAPI) (e : Effect) : Prop :=
  match e with
  | Axios req cbs cb =>
      exists E items,
        req = request_for E c items
        /\ cbs = map callback items
        /\ (1 <= length items)%nat
        /\ Z.of_nat (length items) <= flushAt c
  | _ => True
  end.

(** What holds of a client between two interactions. *)
Definition session_inv (w : World) : Prop :=
  let c := this w in
  1 <= flushAt c
  /\ flushInterval c <> 0
  /\ Z.of_nat (length (queue c)) < flushAt c
  /\ (queue c <> [] -> is_Some (timer c))
  /\ (flushed c = false ->
      queue c = [] /\ timer c = None /\ delivered (trace w) = [])
  /\ (enable c = false -> flushed c = false /\ Forall is_immediate (trace w))
  /\ pending_timers (trace w) = option_list (timer c)
  /\ Forall (request_ok c) (trace w).

(** What holds in the middle of [enqueue], after the push: the queue may
    be full and the timer test is still to come. *)
Definition session_weak (w : World) : Prop :=
  let c := this w in
  1 <= flushAt c
  /\ flushInterval c <> 0
  /\ Z.of_nat (length (queue c)) <= flushAt c
  /\ (flushed c = false ->
      queue c = [] /\ timer c = None /\ delivered (trace w) = [])
  /\ (enable c = false -> flushed c = false /\ Forall is_immediate (trace w))
  /\ pending_timers (trace w) = option_list (timer c)
  /\ Forall (request_ok c) (trace w).

(** ** More of the session *)

Definition demo_w0f : World :=
  Eval vm_compute in after (flush demo_env (Some (Fn 3)) demo_w0) demo_w0.

Definition demo_w3 : World :=
  Eval vm_compute in after (flush demo_env (Some (Fn 9)) demo_w2) demo_w2.

Definition demo_w_off1 : World :=
  Eval vm_compute in
    after (enqueue demo_env (VStr "track") (VRef 0%nat) (Some (Fn 1)) demo_w_off)
          demo_w_off.

(** Three records waiting on a client whose [flushAt] the application
    has set to 2. *)
Definition demo_w_backlog : World :=
  {| heap := heap demo_w2;
     this := {| queue := [{| message := VRef 2%nat; callback := Fn 1 |};
                          {| message := VRef 6%nat; callback := Fn 2 |};
                          {| message := VRef 6%nat; callback := Fn 3 |}];
                writeKey := VStr "write-key"; host := default_host;
                timeout := VBool false; flushAt := 2; flushInterval := 10000;
                flushed := true; enable := true; timer := None |};
     trace := []; handles := 0%nat |}.



(** A request that timed out. *)
Definition demo_timed_out : AxiosError :=
  {| code := Some "ECONNABORTED"; response := None |}.


(** ** Properties of [JSON.stringify] *)

Section StringifyFacts.

Variable toISO : Z -> string.
Variable unsafe : Z -> string.

Lemma insert_by_index_In (n : Z) (kv x : string * value)
    (l : list (Z * (string * value))) :
  In x (map snd (insert_by_index n kv l)) -> x = kv \/ In x (map snd l).
Proof.
  induction l as [|[m y] l IH]; cbn [insert_by_index map].
  - intros [<-|[]]. left. reflexivity.
  - destruct (n <? m); cbn [map snd].
    + intros [<-|Hin]; [left; reflexivity|right; exact Hin].
    + intros [<-|Hin]; [right; left; reflexivity|].
      destruct (IH Hin) as [->|Hl]; [left; reflexivity|right; right; exact Hl].
Qed.

Lemma indexed_In (ps : props) (x : string * value) :
  In x (map snd (indexed ps)) -> In x ps.
Proof.
  induction ps as [|kv ps IH]; cbn [indexed]; [exact id|].
  destruct (array_index (fst kv)).
  - intros Hin. destruct (insert_by_index_In _ _ _ _ Hin) as [->|Hl].
    + left. reflexivity.
    + right. exact (IH Hl).
  - intros Hin. right. exact (IH Hin).
Qed.

(** Enumerating the properties of an object invents none. *)
Lemma enumeration_In (ps : props) (x : string * value) :
  In x (enumeration ps) -> In x ps.
Proof.
  unfold enumeration. intros Hin. apply in_app_or in Hin.
  destruct Hin as [Hin|Hin]; [exact (indexed_In _ _ Hin)|].
  apply list_elem_of_In in Hin. apply list_elem_of_filter in Hin.
  apply list_elem_of_In. exact (proj2 Hin).
Qed.

Lemma members_agree (f g : value -> Result (option string)) (ps : props) :
  (forall kv, In kv ps -> f (snd kv) = g (snd kv)) ->
  ref_members f ps = ref_members g ps.
Proof.
  induction ps as [|[k x] ps IH]; intros Hfg; [reflexivity|].
  cbn [ref_members].
  assert (Hx : f x = g x) by (apply (Hfg (k, x)); left; reflexivity).
  rewrite Hx.
  rewrite IH by (intros kv Hin; apply Hfg; right; exact Hin).
  reflexivity.
Qed.

Lemma elements_agree (f g : value -> Result (option string)) (vs : list value) :
  (forall x, In x vs -> f x = g x) ->
  ref_elements f vs = ref_elements g vs.
Proof.
  induction vs as [|x vs IH]; intros Hfg; [reflexivity|].
  cbn [ref_elements]. rewrite (Hfg x) by (left; reflexivity).
  rewrite IH by (intros y Hin; apply Hfg; right; exact Hin).
  reflexivity.
Qed.

Lemma members_in_budget (f : value -> Result (option string)) (ps : props) :
  (forall kv, In kv ps -> f (snd kv) <> OutOfFuel) ->
  ref_members f ps <> OutOfFuel.
Proof.
  induction ps as [|[k x] ps IH]; intros Hf; [discriminate|].
  cbn [ref_members].
  assert (Hx : f x <> OutOfFuel) by (apply (Hf (k, x)); left; reflexivity).
  assert (Hps : ref_members f ps <> OutOfFuel)
    by (apply IH; intros kv Hin; apply Hf; right; exact Hin).
  destruct (f x) as [[s|]| |]; try congruence.
  destruct (ref_members f ps); congruence.
Qed.

Lemma elements_in_budget (f : value -> Result (option string)) (vs : list value) :
  (forall x, In x vs -> f x <> OutOfFuel) ->
  ref_elements f vs <> OutOfFuel.
Proof.
  induction vs as [|x vs IH]; intros Hf; [discriminate|].
  cbn [ref_elements].
  assert (Hx : f x <> OutOfFuel) by (apply Hf; left; reflexivity).
  assert (Hvs : ref_elements f vs <> OutOfFuel)
    by (apply IH; intros y Hin; apply Hf; right; exact Hin).
  destruct (f x) as [o| |]; try congruence.
  destruct (ref_elements f vs); congruence.
Qed.

(** More budget does not change a result that was reached. *)
Lemma members_more (f g : value -> Result (option string)) (ps : props) :
  (forall x, f x <> OutOfFuel -> g x = f x) ->
  ref_members f ps <> OutOfFuel ->
  ref_members g ps = ref_members f ps.
Proof.
  intros Hfg. induction ps as [|[k x] ps IH]; [reflexivity|].
  cbn [ref_members]. intros Hne.
  assert (Hx : f x <> OutOfFuel) by (destruct (f x); congruence).
  rewrite (Hfg x Hx).
  destruct (f x) as [[s|]| |]; try reflexivity.
  - rewrite IH; [reflexivity|]. destruct (ref_members f ps); congruence.
  - apply IH. exact Hne.
Qed.

Lemma elements_more (f g : value -> Result (option string)) (vs : list value) :
  (forall x, f x <> OutOfFuel -> g x = f x) ->
  ref_elements f vs <> OutOfFuel ->
  ref_elements g vs = ref_elements f vs.
Proof.
  intros Hfg. induction vs as [|x vs IH]; [reflexivity|].
  cbn [ref_elements]. intros Hne.
  assert (Hx : f x <> OutOfFuel) by (destruct (f x); congruence).
  rewrite (Hfg x Hx).
  destruct (f x) as [o| |]; try reflexivity.
  rewrite IH; [reflexivity|]. destruct (ref_elements f vs); congruence.
Qed.

Lemma wrap_in_budget (open close : string) (r : Result (list string)) :
  wrap open close r <> OutOfFuel <-> r <> OutOfFuel.
Proof. destruct r; cbn; split; congruence. Qed.

Lemma lookup_cell_app_l (h cs : Heap) (l : loc) :
  (l < length h)%nat -> lookup_cell (h ++ cs) l = lookup_cell h l.
Proof.
  intros Hl. unfold lookup_cell. rewrite lookup_app_l by exact Hl. reflexivity.
Qed.

Lemma lookup_cell_beyond (h : Heap) (l : loc) :
  (length h <= l)%nat -> lookup_cell h l = CObj [].
Proof.
  intros Hl. unfold lookup_cell. rewrite lookup_ge_None_2 by exact Hl.
  reflexivity.
Qed.

Lemma closed_cell (h : Heap) (l : loc) (kv : string * value) :
  closed h = true -> In kv (cell_props (lookup_cell h l)) ->
  allocated h (snd kv) = true.
Proof.
  intros Hc Hin. unfold lookup_cell in Hin.
  destruct (h !! l) as [c|] eqn:Hl; cbn in Hin; [|contradiction].
  unfold closed in Hc. rewrite forallb_forall in Hc.
  assert (Hc' := Hc c (proj1 (list_elem_of_In _ _) (list_elem_of_lookup_2 _ _ _ Hl))).
  rewrite forallb_forall in Hc'. apply Hc'. exact Hin.
Qed.

Lemma index_props_values (i : nat) (vs : list value) (kv : string * value) :
  In kv (index_props i vs) -> In (snd kv) vs.
Proof.
  revert i. induction vs as [|v vs IH]; intros i Hin; [contradiction|].
  cbn in Hin. destruct Hin as [<-|Hin]; [left; reflexivity|].
  right. exact (IH _ Hin).
Qed.

Lemma index_props_keys (i : nat) (vs : list value) (x : value) :
  In x vs -> exists k, In (k, x) (index_props i vs).
Proof.
  revert i. induction vs as [|v vs IH]; intros i Hin; [contradiction|].
  destruct Hin as [->|Hin].
  - eexists. left. reflexivity.
  - destruct (IH (S i) Hin) as [k Hk]. exists k. right. exact Hk.
Qed.

(** Objects allocated later do not show in the serialization of a value
    of a closed store. *)
Lemma ref_serialize_app (h cs : Heap) (fuel : nat) :
  closed h = true ->
  forall stack v, allocated h v = true ->
  ref_serialize toISO unsafe (h ++ cs) fuel stack v
  = ref_serialize toISO unsafe h fuel stack v.
Proof.
  intros Hc. induction fuel as [|fuel IH]; intros stack v Hv.
  - destruct v; reflexivity.
  - destruct v as [| | | | | | |l]; try reflexivity.
    cbn [ref_serialize].
    destruct (existsb (Nat.eqb l) stack); [reflexivity|].
    cbn in Hv. apply Nat.ltb_lt in Hv.
    rewrite lookup_cell_app_l by exact Hv.
    destruct (lookup_cell h l) as [ps|vs] eqn:Hcell.
    + f_equal. apply members_agree. intros kv Hin. apply IH.
      apply (closed_cell h l); [exact Hc|]. rewrite Hcell.
      apply enumeration_In. exact Hin.
    + f_equal. apply elements_agree. intros x Hin. apply IH.
      destruct (index_props_keys 0 vs x Hin) as [k Hk].
      apply (closed_cell h l (k, x)); [exact Hc|]. rewrite Hcell. exact Hk.
Qed.

Lemma ref_serialize_more (h : Heap) (fuel : nat) :
  forall fuel' stack v, (fuel <= fuel')%nat ->
  ref_serialize toISO unsafe h fuel stack v <> OutOfFuel ->
  ref_serialize toISO unsafe h fuel' stack v
  = ref_serialize toISO unsafe h fuel stack v.
Proof.
  induction fuel as [|fuel IH]; intros fuel' stack v Hle Hne.
  - destruct v as [| | | | | | |l]; try (destruct fuel'; reflexivity).
    cbn [ref_serialize] in *.
    destruct fuel'; cbn [ref_serialize];
      destruct (existsb (Nat.eqb l) stack); congruence.
  - destruct fuel' as [|fuel']; [lia|].
    destruct v as [| | | | | | |l]; try reflexivity.
    cbn [ref_serialize] in *.
    destruct (existsb (Nat.eqb l) stack); [reflexivity|].
    destruct (lookup_cell h l) as [ps|vs].
    + apply wrap_in_budget in Hne. f_equal. apply members_more; [|exact Hne].
      intros x Hx. apply IH; [lia|exact Hx].
    + apply wrap_in_budget in Hne. f_equal. apply elements_more; [|exact Hne].
      intros x Hx. apply IH; [lia|exact Hx].
Qed.

Lemma existsb_eqb_In (l : loc) (stack : list loc) :
  existsb (Nat.eqb l) stack = false -> ~ In l stack.
Proof.
  intros Hex Hin.
  assert (existsb (Nat.eqb l) stack = true); [|congruence].
  apply existsb_exists. exists l. split; [exact Hin|apply Nat.eqb_refl].
Qed.

Lemma stack_bound (h : Heap) (stack : list loc) :
  List.NoDup stack -> (forall a, In a stack -> (a < length h)%nat) ->
  (length stack <= length h)%nat.
Proof.
  intros Hnd Hb.
  assert (Hle : (length stack <= length (List.seq 0 (length h)))%nat).
  { apply List.NoDup_incl_length; [exact Hnd|].
    intros a Ha. apply List.in_seq. specialize (Hb a Ha). lia. }
  rewrite List.length_seq in Hle. exact Hle.
Qed.

(** The serializer does not run out of budget as long as the budget
    covers the objects not yet on the stack. *)
Lemma ref_serialize_in_budget (h : Heap) (fuel : nat) :
  forall stack v,
  List.NoDup stack -> (forall a, In a stack -> (a < length h)%nat) ->
  (length h < fuel + length stack)%nat ->
  ref_serialize toISO unsafe h fuel stack v <> OutOfFuel.
Proof.
  induction fuel as [|fuel IH]; intros stack v Hnd Hb Hlen.
  - pose proof (stack_bound h stack Hnd Hb). lia.
  - destruct v as [| | | | | | |l]; try discriminate.
    cbn [ref_serialize].
    destruct (existsb (Nat.eqb l) stack) eqn:Hex; [discriminate|].
    apply existsb_eqb_In in Hex.
    destruct (Nat.lt_ge_cases l (length h)) as [Hl|Hl].
    + assert (Hsub : forall x,
                 ref_serialize toISO unsafe h fuel (l :: stack) x <> OutOfFuel).
      { intros x. apply IH.
        - constructor; assumption.
        - intros a [<-|Ha]; [exact Hl|apply Hb; exact Ha].
        - cbn [length]. lia. }
      destruct (lookup_cell h l) as [ps|vs]; apply wrap_in_budget.
      * apply members_in_budget. intros kv _. apply Hsub.
      * apply elements_in_budget. intros x _. apply Hsub.
    + rewrite lookup_cell_beyond by exact Hl. discriminate.
Qed.

(** The reference serializer is local in the sense of [local_stringify]. *)
Lemma ref_stringify_app (h cs : Heap) (v : value) :
  closed h = true -> allocated h v = true ->
  ref_stringify toISO unsafe (h ++ cs) v = ref_stringify toISO unsafe h v.
Proof.
  intros Hc Hv. unfold ref_stringify.
  rewrite ref_serialize_app by assumption.
  rewrite (ref_serialize_more h (S (length h))); [reflexivity| |].
  - rewrite length_app. lia.
  - apply ref_serialize_in_budget; [constructor|intros a []|cbn; lia].
Qed.

End StringifyFacts.

(** ** Property lists and the store *)

Lemma assoc_put (k k' : string) (v : value) (ps : props) :
  assoc k (put k' v ps) = if String.eqb k k' then Some v else assoc k ps.
Proof.
  induction ps as [|[k0 v0] ps IH]; cbn [put assoc].
  - reflexivity.
  - destruct (String.eqb k' k0) eqn:E0; cbn [assoc].
    + apply String.eqb_eq in E0. subst k0.
      destruct (String.eqb k k'); reflexivity.
    + rewrite IH. destruct (String.eqb k k0) eqn:E1; [|reflexivity].
      apply String.eqb_eq in E1. subst k0.
      destruct (String.eqb k k') eqn:E2; [|reflexivity].
      apply String.eqb_eq in E2. subst k'.
      rewrite String.eqb_refl in E0. discriminate.
Qed.

Lemma assoc_absent (k : string) (ps : props) :
  ~ In k (map fst ps) -> assoc k ps = None.
Proof.
  induction ps as [|[k0 v0] ps IH]; intros Hn; [reflexivity|].
  cbn [assoc]. destruct (String.eqb k k0) eqn:E0.
  - apply String.eqb_eq in E0. subst k0. exfalso. apply Hn. left. reflexivity.
  - apply IH. intros Hin. apply Hn. right. exact Hin.
Qed.

Lemma assoc_assign_absent (k : string) (source : props) :
  assoc k source = None ->
  forall target, assoc k (assign target source) = assoc k target.
Proof.
  unfold assign.
  induction source as [|[k0 v0] source IH]; intros Hk target; [reflexivity|].
  cbn [fold_left fst snd]. cbn [assoc] in Hk.
  destruct (String.eqb k k0) eqn:E0; [discriminate|].
  rewrite IH by exact Hk.
  destruct (String.eqb k0 "__proto__"); [reflexivity|].
  rewrite assoc_put, E0. reflexivity.
Qed.

(** On a key of the source, [Object.assign] yields the source's value. *)
Lemma assoc_assign_present (k : string) (v : value) (source : props) :
  k <> "__proto__" ->
  unique_keys source -> assoc k source = Some v ->
  forall target, assoc k (assign target source) = Some v.
Proof.
  unfold assign, unique_keys. intros Hp.
  induction source as [|[k0 v0] source IH]; intros Hu Hk target; [discriminate|].
  cbn [fold_left fst snd]. cbn [assoc] in Hk. cbn [map fst] in Hu.
  apply NoDup_cons in Hu. destruct Hu as [Hk0 Hu].
  destruct (String.eqb k k0) eqn:E0.
  - apply String.eqb_eq in E0. subst k0. inversion Hk; subst v0.
    apply String.eqb_neq in Hp. rewrite Hp.
    pose proof (assoc_assign_absent k source) as Ha. unfold assign in Ha.
    rewrite Ha.
    + rewrite assoc_put, String.eqb_refl. reflexivity.
    + apply assoc_absent. intros Hin. apply Hk0. apply list_elem_of_In. exact Hin.
  - apply IH; assumption.
Qed.

Lemma assign_nil (source : props) (k : string) :
  k <> "__proto__" ->
  unique_keys source -> assoc k (assign [] source) = assoc k source.
Proof.
  intros Hp Hu. destruct (assoc k source) as [v|] eqn:Hk.
  - apply assoc_assign_present; assumption.
  - rewrite assoc_assign_absent by exact Hk. reflexivity.
Qed.

Lemma get_prop_fresh (h : Heap) (ps : props) (cs : Heap) (k : string) :
  get_prop (h ++ CObj ps :: cs) (length h) k = default VUndef (assoc k ps).
Proof.
  unfold get_prop, lookup_cell. rewrite list_lookup_middle by reflexivity.
  reflexivity.
Qed.

Lemma set_prop_fresh (h : Heap) (ps : props) (cs : Heap) (k : string) (v : value) :
  set_prop (h ++ CObj ps :: cs) (length h) k v = h ++ CObj (put k v ps) :: cs.
Proof.
  unfold set_prop, lookup_cell. rewrite list_lookup_middle by reflexivity.
  cbn [from_option id]. rewrite insert_app_r_alt by lia.
  rewrite Nat.sub_diag. reflexivity.
Qed.

Lemma own_props_app (h cs : Heap) (v : value) :
  allocated h v = true -> own_props (h ++ cs) v = own_props h v.
Proof.
  destruct v as [| | | | | | |l]; try reflexivity.
  cbn [allocated own_props]. intros Hl. apply Nat.ltb_lt in Hl.
  rewrite lookup_cell_app_l by exact Hl. reflexivity.
Qed.

(** A value read from an object of a closed store is allocated. *)
Lemma closed_own_props (h : Heap) (v : value) (k : string) :
  closed h = true -> allocated h (field h v k) = true.
Proof.
  intros Hc. unfold field.
  destruct (assoc k (own_props h v)) as [x|] eqn:Hk; [|reflexivity].
  assert (Hin : In (k, x) (own_props h v)).
  { clear Hc. induction (own_props h v) as [|[k0 v0] ps IH]; [discriminate|].
    cbn [assoc] in Hk. destruct (String.eqb k k0) eqn:E0.
    - apply String.eqb_eq in E0. subst k0. inversion Hk. left. reflexivity.
    - right. apply IH. exact Hk. }
  cbn [from_option id]. destruct v as [| | | |s| | |l]; try contradiction.
  - clear Hk. cbn [own_props] in Hin. revert Hin. generalize 0%nat.
    induction s as [|a s IH]; intros i Hin; [contradiction|].
    destruct Hin as [Heq|Hin]; [inversion Heq; reflexivity|exact (IH _ Hin)].
  - apply (closed_cell h l (k, x)); assumption.
Qed.

(** ** Running [enqueue] on an enabled client *)

Ltac plumb H :=
  cbv beta iota zeta delta
    [mbind M_bind mret M_ret get_this get_heap set_heap set_this Object_assign
     new_object Get Set_ alloc stringify lift md5_of throw heap this trace
     handles] in H.

Ltac norm H :=
  repeat first
    [ rewrite set_prop_fresh in H
    | rewrite get_prop_fresh in H
    | rewrite <- app_assoc in H; cbn [app] in H
    | rewrite length_app in H; cbn [length] in H
    | rewrite assoc_put in H; cbn [String.eqb Ascii.eqb Bool.eqb] in H ].

(** Symbolic execution of a run [H : m w = Ok _]: unfold the plumbing,
    bring the store to the form [h ++ cells], and split on the next test
    the run depends on. *)
Ltac exec H :=
  repeat (plumb H; norm H;
    lazymatch type of H with
    | Throw _ = Ok _ => discriminate H
    | OutOfFuel = Ok _ => discriminate H
    | context [match (if ?c then _ else _) _ with _ => _ end] =>
        destruct c eqn:?
    | context [match JSON_stringify ?a ?b ?c with _ => _ end] =>
        destruct (JSON_stringify a b c) as [?e|[?s|]] eqn:?
    end).

(** Lines 96-128 allocate four objects after the store of the caller (the
    copy of the message, the library identity, the context and the
    metadata), push the copy, and leave the rest to the flush triggers. *)
Lemma enqueue_enabled E ty msg cb w w' :
  enable (this w) = true ->
  enqueue E ty msg cb w = Ok (tt, w') ->
  let h := heap w in
  let m := length h in
  let p0 := assign [] (own_props h msg) in
  exists pf cs1 cs2,
    flush_triggers E
      {| heap := h ++ [CObj pf; CObj library_props;
                       CObj (assign [("library", VRef (m + 1)%nat)]
                               (own_props (h ++ cs1)
                                  (default VUndef (assoc "context" p0))));
                       CObj (assign [("nodeVersion", VStr (nodeVersion E))]
                               (own_props (h ++ cs2)
                                  (default VUndef (assoc "_metadata" p0))))];
         this := pushed m cb (this w);
         trace := trace w;
         handles := handles w |} = Ok (tt, w')
    /\ assoc "type" pf = Some ty
    /\ assoc "context" pf = Some (VRef (m + 2)%nat)
    /\ assoc "_metadata" pf = Some (VRef (m + 3)%nat)
    /\ coerced E h p0 pf "anonymousId"
    /\ coerced E h p0 pf "userId".
Proof.
  destruct w as [h c t n]. cbn [heap this trace handles].
  intros He H. unfold enqueue in H. plumb H. rewrite He in H. cbn [negb] in H.
  exec H.
  all: plumb H; norm H.
  all: do 3 eexists; split; [exact H|].
  all: unfold coerced; cbv zeta.
  all: repeat match goal with
       | Hc : ?c = _ |- context [if ?c then _ else _] => rewrite Hc
       end.
  all: rewrite ?assoc_put; cbn [String.eqb Ascii.eqb Bool.eqb from_option id].
  all: repeat split; try reflexivity;
    do 2 eexists; (split; [eassumption|reflexivity]).
Qed.

(** ** Running [flush] *)

Lemma with_timer_None (c : TheAnalyticsAPI) :
  timer c = None -> with_timer None c = c.
Proof. destruct c; cbn; intros ->; reflexivity. Qed.

Lemma flush_disabled E cb w :
  enable (this w) = false ->
  flush E cb w
  = Ok (tt, {| heap := heap w; this := this w;
               trace := trace w ++ [SetImmediate (default noop cb)];
               handles := handles w |}).
Proof.
  intros He. unfold flush.
  cbv beta iota zeta delta [mbind M_bind get_this].
  rewrite He. reflexivity.
Qed.

Lemma flush_empty E cb w :
  enable (this w) = true -> queue (this w) = [] ->
  flush E cb w
  = Ok (tt, {| heap := heap w; this := with_timer None (this w);
               trace := trace w ++ clear_effects (timer (this w))
                          ++ [SetImmediate (default noop cb)];
               handles := handles w |}).
Proof.
  intros He Hq. destruct w as [h c t n]. cbn [heap this trace handles] in *.
  unfold flush.
  cbv beta iota zeta delta [mbind M_bind get_this this].
  rewrite He. cbn [negb].
  destruct c as [q wk ho ti fa fi fl en tm]. cbn in He, Hq. subst en q.
  destruct tm as [handle|];
    cbv beta iota zeta delta
      [mbind M_bind mret M_ret get_this set_this emit setImmediate
       clearTimeout splice0 heap this trace handles queue timer enable
       with_timer length Nat.eqb].
  - rewrite <- app_assoc. reflexivity.
  - reflexivity.
Qed.

Lemma flush_nonempty E cb w :
  enable (this w) = true -> queue (this w) <> [] ->
  let c := this w in
  let n := Z.to_nat (flushAt c) in
  flush E cb w
  = Ok (tt, {| heap := heap w;
               this := with_queue (drop n (queue c)) (with_timer None c);
               trace := trace w ++ clear_effects (timer c)
                          ++ [Axios (request_for E c (take n (queue c)))
                                    (map callback (take n (queue c)))
                                    (default noop cb)];
               handles := handles w |}).
Proof.
  intros He Hq. destruct w as [h c t n]. cbn [heap this trace handles] in *.
  cbv zeta. unfold flush.
  cbv beta iota zeta delta [mbind M_bind get_this this].
  rewrite He. cbn [negb].
  destruct c as [q wk ho ti fa fi fl en tm]. cbn in He, Hq. subst en.
  destruct q as [|e q]; [congruence|].
  destruct tm as [handle|];
    cbv beta iota zeta delta
      [mbind M_bind mret M_ret get_this set_this emit setImmediate
       clearTimeout splice0 heap this trace handles queue timer enable
       with_timer length Nat.eqb].
  - rewrite <- app_assoc. reflexivity.
  - reflexivity.
Qed.

(** [flush] always returns. *)
Lemma flush_returns E cb w : exists w', flush E cb w = Ok (tt, w').
Proof.
  destruct (enable (this w)) eqn:He.
  - destruct (queue (this w)) as [|e q] eqn:Hq.
    + eexists. apply flush_empty; assumption.
    + eexists. apply flush_nonempty; [assumption|congruence].
  - eexists. apply flush_disabled; assumption.
Qed.

(** ** Running the flush triggers *)

(** The very first enqueue: flush and return, lines 130-134. *)
Lemma flush_triggers_first E w :
  flushed (this w) = false ->
  flush_triggers E w = flush E None (set_flushed w).
Proof.
  intros Hf. unfold flush_triggers.
  cbv beta iota zeta delta [mbind M_bind get_this set_this].
  rewrite Hf. reflexivity.
Qed.

(** Every later enqueue: the size test, then the timer test,
    lines 136-142. *)
Lemma flush_triggers_later E w :
  flushed (this w) = true ->
  flush_triggers E w
  = match (if Z.of_nat (length (queue (this w))) >=? flushAt (this w)
           then flush E None w else Ok (tt, w)) with
    | Ok (_, w1) => Ok (tt, arm w1)
    | Throw e => Throw e
    | OutOfFuel => OutOfFuel
    end.
Proof.
  intros Hf. unfold flush_triggers.
  cbv beta iota zeta delta [mbind M_bind get_this].
  rewrite Hf. cbn [negb].
  destruct (Z.of_nat (length (queue (this w))) >=? flushAt (this w)).
  - destruct (flush E None w) as [[[] w1]| |]; [|reflexivity|reflexivity].
    unfold arm.
    destruct (negb (flushInterval (this w1) =? 0)
              && negb (bool_decide (is_Some (timer (this w1)))));
      [reflexivity|destruct w1; reflexivity].
  - cbv beta iota zeta delta [mret M_ret]. unfold arm.
    destruct (negb (flushInterval (this w) =? 0)
              && negb (bool_decide (is_Some (timer (this w)))));
      [reflexivity|destruct w; reflexivity].
Qed.

Lemma arm_pending (w : World) :
  flushInterval (this w) <> 0 -> is_Some (timer (this (arm w))).
Proof.
  intros Hi. unfold arm.
  destruct (flushInterval (this w) =? 0) eqn:E0; [apply Z.eqb_eq in E0; lia|].
  cbn [negb andb].
  destruct (bool_decide (is_Some (timer (this w)))) eqn:Hd; cbn [negb].
  - apply bool_decide_eq_true in Hd. exact Hd.
  - cbn. eexists. reflexivity.
Qed.

Lemma same_config_refl c : same_config c c.
Proof. repeat split. Qed.

Lemma same_config_trans c1 c2 c3 :
  same_config c1 c2 -> same_config c2 c3 -> same_config c1 c3.
Proof.
  unfold same_config. intros (?&?&?&?&?&?) (?&?&?&?&?&?).
  repeat split; congruence.
Qed.

Lemma arm_config (w : World) : same_config (this w) (this (arm w)).
Proof.
  unfold arm.
  destruct (negb (flushInterval (this w) =? 0)
            && negb (bool_decide (is_Some (timer (this w)))));
    repeat split.
Qed.

Lemma flush_config E cb w w' :
  flush E cb w = Ok (tt, w') -> same_config (this w) (this w').
Proof.
  intros H. destruct (enable (this w)) eqn:He.
  - destruct (queue (this w)) as [|e q] eqn:Hq.
    + rewrite flush_empty in H by assumption. inversion H. repeat split.
    + rewrite flush_nonempty in H by (try assumption; congruence).
      inversion H. repeat split.
  - rewrite flush_disabled in H by assumption. inversion H. repeat split.
Qed.

Lemma flush_heap E cb w w' :
  flush E cb w = Ok (tt, w') -> heap w' = heap w.
Proof.
  intros H. destruct (enable (this w)) eqn:He.
  - destruct (queue (this w)) as [|e q] eqn:Hq.
    + rewrite flush_empty in H by assumption. inversion H. reflexivity.
    + rewrite flush_nonempty in H by (try assumption; congruence).
      inversion H. reflexivity.
  - rewrite flush_disabled in H by assumption. inversion H. reflexivity.
Qed.

Lemma arm_heap (w : World) : heap (arm w) = heap w.
Proof.
  unfold arm.
  destruct (negb (flushInterval (this w) =? 0)
            && negb (bool_decide (is_Some (timer (this w))))); reflexivity.
Qed.

Lemma flush_triggers_inv E w w' :
  flush_triggers E w = Ok (tt, w') ->
  (flushed (this w) = false /\ flush E None (set_flushed w) = Ok (tt, w'))
  \/ (flushed (this w) = true
      /\ exists w1, w' = arm w1
         /\ if Z.of_nat (length (queue (this w))) >=? flushAt (this w)
            then flush E None w = Ok (tt, w1) else w1 = w).
Proof.
  intros H. destruct (flushed (this w)) eqn:Hf.
  - right. split; [reflexivity|].
    rewrite flush_triggers_later in H by exact Hf.
    destruct (Z.of_nat (length (queue (this w))) >=? flushAt (this w)).
    + destruct (flush E None w) as [[[] w1]| |]; try discriminate.
      inversion H. eauto.
    + inversion H. eauto.
  - left. split; [reflexivity|].
    rewrite flush_triggers_first in H by exact Hf. exact H.
Qed.

Lemma flush_triggers_config E w w' :
  flush_triggers E w = Ok (tt, w') -> same_config (this w) (this w').
Proof.
  intros H. apply flush_triggers_inv in H.
  destruct H as [[_ H]|[_ (w1 & -> & H)]].
  - apply flush_config in H. exact H.
  - eapply same_config_trans; [|apply arm_config].
    destruct (Z.of_nat (length (queue (this w))) >=? flushAt (this w)).
    + apply flush_config in H. exact H.
    + subst w1. apply same_config_refl.
Qed.

Lemma flush_triggers_heap E w w' :
  flush_triggers E w = Ok (tt, w') -> heap w' = heap w.
Proof.
  intros H. apply flush_triggers_inv in H.
  destruct H as [[_ H]|[_ (w1 & -> & H)]].
  - apply flush_heap in H. exact H.
  - rewrite arm_heap.
    destruct (Z.of_nat (length (queue (this w))) >=? flushAt (this w)).
    + apply flush_heap in H. exact H.
    + subst w1. reflexivity.
Qed.

(** ** Disabled clients, [track], and what every interaction preserves *)

Lemma enqueue_disabled E ty msg cb w :
  enable (this w) = false ->
  enqueue E ty msg cb w
  = Ok (tt, {| heap := heap w; this := this w;
               trace := trace w ++ [SetImmediate (default noop cb)];
               handles := handles w |}).
Proof.
  intros He. unfold enqueue.
  cbv beta iota zeta delta [mbind M_bind get_this].
  rewrite He. reflexivity.
Qed.

Lemma track_unfold E msg cb w :
  track E msg cb w
  = match looselyValidate E (heap w) msg (VStr "track") with
    | Some e => Throw e
    | None => enqueue E (VStr "track") msg cb w
    end.
Proof.
  unfold track, _validate.
  cbv beta iota zeta delta [mbind M_bind get_heap].
  destruct (looselyValidate E (heap w) msg (VStr "track")); reflexivity.
Qed.

Lemma track_enqueue E msg cb w w' :
  track E msg cb w = Ok (tt, w') ->
  enqueue E (VStr "track") msg cb w = Ok (tt, w').
Proof.
  rewrite track_unfold.
  destruct (looselyValidate E (heap w) msg (VStr "track")); [discriminate|].
  intros H. exact H.
Qed.

Lemma enqueue_config E ty msg cb w w' :
  enqueue E ty msg cb w = Ok (tt, w') -> same_config (this w) (this w').
Proof.
  intros H. destruct (enable (this w)) eqn:He.
  - destruct (enqueue_enabled E ty msg cb w w' He H) as (pf & cs1 & cs2 & Ht & _).
    apply flush_triggers_config in Ht. exact Ht.
  - rewrite enqueue_disabled in H by exact He. inversion H. repeat split.
Qed.

Lemma flush_triggers_returns E w : exists w', flush_triggers E w = Ok (tt, w').
Proof.
  destruct (flushed (this w)) eqn:Hf.
  - rewrite flush_triggers_later by exact Hf.
    destruct (Z.of_nat (length (queue (this w))) >=? flushAt (this w)).
    + destruct (flush_returns E None w) as [w1 ->]. eexists. reflexivity.
    + eexists. reflexivity.
  - rewrite flush_triggers_first by exact Hf. apply flush_returns.
Qed.



Ltac exec_throw H :=
  repeat (plumb H; norm H;
    lazymatch type of H with
    | OutOfFuel = Throw _ => discriminate H
    | Ok _ = Throw _ => discriminate H
    | context [match (if ?c then _ else _) _ with _ => _ end] =>
        destruct c eqn:?
    | context [match JSON_stringify ?a ?b ?c with _ => _ end] =>
        let Hjs := fresh "Hjs" in
        destruct (JSON_stringify a b c) as [?e|[?s|]] eqn:Hjs
    end).

(** An exception of [enqueue] is one [JSON.stringify] threw, or the one
    of [md5] when [JSON.stringify] gave it [undefined]; a disabled client
    throws nothing. *)
Lemma enqueue_throws E ty msg cb w e :
  enqueue E ty msg cb w = Throw e ->
  enable (this w) = true
  /\ ((exists h v, JSON_stringify E h v = inl e)
      \/ e = NewError "Illegal argument undefined").
Proof.
  destruct (enable (this w)) eqn:He.
  - intros H. split; [reflexivity|].
    destruct w as [h c t n]. cbn [this] in He.
    unfold enqueue in H. plumb H. rewrite He in H. cbn [negb] in H.
    exec_throw H.
    all: plumb H; norm H.
    all: match type of H with
         | flush_triggers ?E ?w = _ =>
             destruct (flush_triggers_returns E w) as [w1 Hw1];
             rewrite Hw1 in H; discriminate H
         | Throw _ = Throw _ => inversion H; subst
         end.
    all: first [right; reflexivity|left; do 2 eexists; eassumption].
  - rewrite enqueue_disabled by exact He. discriminate.
Qed.

Lemma step_config w w' : step w w' -> same_config (this w) (this w').
Proof.
  intros [E m cb w1 w2 H|E ty m cb w1 w2 H|E cb w1 w2 H|E t w1 w2 _ H|h w1 _].
  - apply track_enqueue in H. apply enqueue_config in H. exact H.
  - apply enqueue_config in H. exact H.
  - apply flush_config in H. exact H.
  - apply flush_config in H. exact H.
  - repeat split.
Qed.

Lemma steps_config w w' : steps w w' -> same_config (this w) (this w').
Proof.
  induction 1 as [w|w1 w2 w3 _ IH Hs].
  - apply same_config_refl.
  - eapply same_config_trans; [exact IH|apply step_config; exact Hs].
Qed.

Lemma flush_keyed E cb w w' :
  flush E cb w = Ok (tt, w') -> requests_keyed w -> requests_keyed w'.
Proof.
  intros H Hk req cbs cb0 Hin.
  pose proof (flush_config E cb w w' H) as (Hwk & _). rewrite Hwk.
  destruct (enable (this w)) eqn:He.
  - destruct (queue (this w)) as [|e q] eqn:Hq.
    + rewrite flush_empty in H by assumption. inversion H; subst w'; clear H.
      cbn [trace] in Hin. rewrite !in_app_iff in Hin.
      destruct Hin as [Hin|[Hin|[Hin|[]]]]; [eapply Hk; exact Hin| |discriminate].
      destruct (timer (this w)); [destruct Hin as [Hin|[]]; discriminate|destruct Hin].
    + rewrite flush_nonempty in H by (try assumption; congruence).
      inversion H; subst w'; clear H.
      cbn [trace] in Hin. rewrite !in_app_iff in Hin.
      destruct Hin as [Hin|[Hin|[Hin|[]]]]; [eapply Hk; exact Hin| |].
      * destruct (timer (this w)); [destruct Hin as [Hin|[]]; discriminate|destruct Hin].
      * inversion Hin. reflexivity.
  - rewrite flush_disabled in H by assumption. inversion H; subst w'; clear H.
    cbn [trace] in Hin. rewrite in_app_iff in Hin.
    destruct Hin as [Hin|[Hin|[]]]; [eapply Hk; exact Hin|discriminate].
Qed.

Lemma arm_keyed (w : World) : requests_keyed w -> requests_keyed (arm w).
Proof.
  unfold arm.
  destruct (negb (flushInterval (this w) =? 0)
            && negb (bool_decide (is_Some (timer (this w))))); [|tauto].
  intros Hk req cbs cb Hin. cbn [trace this with_timer writeKey] in *.
  rewrite in_app_iff in Hin.
  destruct Hin as [Hin|[Hin|[]]]; [eapply Hk; exact Hin|discriminate].
Qed.

Lemma flush_triggers_keyed E w w' :
  flush_triggers E w = Ok (tt, w') -> requests_keyed w -> requests_keyed w'.
Proof.
  intros H Hk. apply flush_triggers_inv in H.
  destruct H as [[_ H]|[_ (w1 & -> & H)]].
  - eapply flush_keyed; [exact H|]. exact Hk.
  - apply arm_keyed.
    destruct (Z.of_nat (length (queue (this w))) >=? flushAt (this w)).
    + eapply flush_keyed; [exact H|exact Hk].
    + subst w1. exact Hk.
Qed.

Lemma enqueue_keyed E ty msg cb w w' :
  enqueue E ty msg cb w = Ok (tt, w') -> requests_keyed w -> requests_keyed w'.
Proof.
  intros H Hk. destruct (enable (this w)) eqn:He.
  - destruct (enqueue_enabled E ty msg cb w w' He H) as (pf & cs1 & cs2 & Ht & _).
    eapply flush_triggers_keyed; [exact Ht|]. exact Hk.
  - rewrite enqueue_disabled in H by exact He. inversion H; subst w'; clear H.
    intros req cbs cb0 Hin. cbn [trace this] in *. rewrite in_app_iff in Hin.
    destruct Hin as [Hin|[Hin|[]]]; [eapply Hk; exact Hin|discriminate].
Qed.

Lemma step_keyed w w' : step w w' -> requests_keyed w -> requests_keyed w'.
Proof.
  intros [E m cb w1 w2 H|E ty m cb w1 w2 H|E cb w1 w2 H|E t w1 w2 _ H|h w1 _] Hk.
  - apply track_enqueue in H. eapply enqueue_keyed; eassumption.
  - eapply enqueue_keyed; eassumption.
  - eapply flush_keyed; eassumption.
  - eapply flush_keyed; eassumption.
  - exact Hk.
Qed.

Lemma steps_keyed w w' : steps w w' -> requests_keyed w -> requests_keyed w'.
Proof.
  induction 1 as [w|w1 w2 w3 _ IH Hs]; intros Hk; [exact Hk|].
  eapply step_keyed; [exact Hs|]. apply IH. exact Hk.
Qed.

(** The floor of [flushAt], line 40. *)
Lemma constructor_flushAt E wk options c :
  constructor E wk options = Ok c -> 1 <= flushAt c.
Proof.
  unfold constructor. destruct (negb (truthy wk)); [discriminate|].
  intros H. inversion H; subst c; clear H. cbn [flushAt].
  unfold num_or, Math_max_1.
  destruct (opt_flushAt (default no_options options)) as [n|]; [|lia].
  destruct (Z.max n 1 =? 0) eqn:E0; lia.
Qed.

(** ** The retry classifier *)

(** C7 (as amended): [_isErrorRetryable] answers true exactly for a
    failure without response that has an error code other than
    [ECONNABORTED] (the code of a request aborted on its time-out) and
    that [is-retry-allowed] lets through, for a response status from 500
    to 599, and for the response status 429. Every other failure is not
    retried: a 404, and also a failure without response that has no code
    or that is a time-out. *)
Theorem isErrorRetryable_exactly (E : Env) (error : AxiosError) :
  _isErrorRetryable E error = true
  <-> (response error = None
       /\ (exists c, code error = Some c /\ c <> "" /\ c <> "ECONNABORTED")
       /\ isRetryAllowed E error = true)
      \/ exists r, response error = Some r
                   /\ (500 <= status r <= 599 \/ status r = 429).
Proof.
  unfold _isErrorRetryable, isNetworkError.
  destruct (response error) as [r|]; cbn [andb].
  - destruct ((500 <=? status r) && (status r <=? 599)) eqn:H5.
    + apply andb_true_iff in H5. destruct H5 as [Hlo Hhi].
      apply Z.leb_le in Hlo. apply Z.leb_le in Hhi.
      split; [|reflexivity]. intros _. right. exists r. split; [reflexivity|lia].
    + destruct (status r =? 429) eqn:H4.
      * apply Z.eqb_eq in H4. split; [|reflexivity].
        intros _. right. exists r. split; [reflexivity|lia].
      * apply Z.eqb_neq in H4. apply andb_false_iff in H5.
        split; [discriminate|].
        intros [(Hn & _)|(r' & Hr & Hs)]; [discriminate|].
        inversion Hr; subst r'.
        destruct H5 as [H5|H5]; apply Z.leb_gt in H5; lia.
  - destruct (code error) as [c|]; cbn [andb].
    + destruct (String.eqb c "") eqn:E0; cbn [negb andb].
      { apply String.eqb_eq in E0. split; [discriminate|].
        intros [(_ & (c' & Hc & Hne & _) & _)|(r & Hr & _)]; [|discriminate].
        inversion Hc; subst c'. contradiction. }
      destruct (String.eqb c "ECONNABORTED") eqn:E1; cbn [negb andb].
      { apply String.eqb_eq in E1. split; [discriminate|].
        intros [(_ & (c' & Hc & _ & Hne) & _)|(r & Hr & _)]; [|discriminate].
        inversion Hc; subst c'. contradiction. }
      apply String.eqb_neq in E0. apply String.eqb_neq in E1.
      destruct (isRetryAllowed E error) eqn:Hal.
      * split; [|reflexivity]. intros _. left.
        split; [reflexivity|]. split; [|reflexivity].
        exists c. split; [reflexivity|]. split; assumption.
      * split; [discriminate|].
        intros [(_ & _ & Habs)|(r & Hr & _)]; discriminate.
    + split; [discriminate|].
      intros [(_ & (c' & Hc & _) & _)|(r & Hr & _)]; discriminate.
Qed.

(** ** The flush *)

Lemma take_min {A : Type} (fa : Z) (q : list A) :
  take (Z.to_nat fa) q = take (Z.to_nat (Z.min (Z.of_nat (length q)) fa)) q
  /\ drop (Z.to_nat fa) q = drop (Z.to_nat (Z.min (Z.of_nat (length q)) fa)) q.
Proof.
  destruct (Z.le_gt_cases fa (Z.of_nat (length q))) as [Hle|Hgt].
  - rewrite Z.min_r by exact Hle. split; reflexivity.
  - rewrite Z.min_l by lia. rewrite Nat2Z.id.
    rewrite !take_ge, !drop_ge by lia. split; reflexivity.
Qed.

(** C3: a flush on an enabled client with a queue of [n > 0] entries, in
    any state whatever (so also for a queue longer than [flushAt], and
    for the flushes [enqueue] makes), removes exactly [min n flushAt]
    entries from the front, in queue order, as the batch of the request;
    the other [n - min n flushAt] entries stay queued in their order.
    [flushAt] is at least 1, as the constructor makes it. *)
Theorem flush_takes_front E cb w :
  enable (this w) = true ->
  queue (this w) <> [] ->
  1 <= flushAt (this w) ->
  let q := queue (this w) in
  let n := length q in
  let k := Z.to_nat (Z.min (Z.of_nat n) (flushAt (this w))) in
  exists w' req,
    flush E cb w = Ok (tt, w')
    /\ trace w' = trace w ++ clear_effects (timer (this w))
                    ++ [Axios req (map callback (take k q)) (default noop cb)]
    /\ batch (data req) = map message (take k q)
    /\ queue (this w') = drop k q
    /\ q = take k q ++ queue (this w')
    /\ Z.of_nat (length (batch (data req))) = Z.min (Z.of_nat n) (flushAt (this w))
    /\ Z.of_nat (length (queue (this w')))
       = Z.of_nat n - Z.min (Z.of_nat n) (flushAt (this w)).
Proof.
  intros He Hq Hfa q n k.
  destruct (take_min (flushAt (this w)) q) as [Htake Hdrop].
  fold n in Htake, Hdrop. fold k in Htake, Hdrop.
  eexists. eexists. split; [apply flush_nonempty; assumption|].
  cbn [trace this with_queue queue request_for data batch].
  fold q. rewrite Htake, Hdrop.
  assert (Hk : Z.of_nat k = Z.min (Z.of_nat n) (flushAt (this w)))
    by (unfold k; lia).
  assert (Hkn : (k <= n)%nat) by lia.
  split; [reflexivity|]. split; [reflexivity|]. split; [reflexivity|].
  split; [symmetry; apply take_drop|].
  split.
  - cbn [request_for data batch].
    rewrite length_map, length_take. fold n. lia.
  - rewrite length_drop. fold n. lia.
Qed.


Lemma call_each_all E (calls : list Invocation) :
  (forall past c, In c calls -> invoke E past c = None) ->
  forall past, call_each E past calls = (calls, None).
Proof.
  induction calls as [|c calls IH]; intros Hq past; cbn [call_each].
  - reflexivity.
  - rewrite (Hq past c) by (left; reflexivity).
    rewrite IH by (intros p x Hin; apply Hq; right; exact Hin).
    reflexivity.
Qed.

(** When a call throws, it is the last one made. *)
Lemma call_each_thrown E (calls : list Invocation) :
  forall past made e, call_each E past calls = (made, Some e) ->
  exists before c, made = before ++ [c]
                   /\ invoke E (past ++ before) c = Some e.
Proof.
  induction calls as [|c calls IH]; intros past made e; cbn [call_each].
  - discriminate.
  - destruct (invoke E past c) as [e0|] eqn:Hc.
    + intros H. inversion H; subst. exists [], c. rewrite app_nil_r.
      split; [reflexivity|exact Hc].
    + destruct (call_each E (past ++ [c]) calls) as [made' thrown] eqn:Hrec.
      intros H. inversion H; subst.
      destruct (IH _ _ _ Hrec) as (before & x & -> & Hx).
      exists (c :: before), x. rewrite <- app_assoc in Hx.
      split; [reflexivity|exact Hx].
Qed.


(** ** The constructor *)

(** C10: with a falsy write key ([undefined], [null], the empty text, ...)
    the constructor throws the assertion error and yields no client; with
    a truthy one it returns a client that keeps the key, and every request
    the client ever issues carries it as its [api_key] header. *)
Theorem constructor_write_key E wk options :
  (truthy wk = false ->
   constructor E wk options
   = Throw (AssertionError "You must pass your project's write key."))
  /\ (truthy wk = true ->
      exists c, constructor E wk options = Ok c
                /\ writeKey c = wk
                /\ forall h w, steps (boot h c) w ->
                   forall req cbs cb, In (Axios req cbs cb) (trace w) ->
                   assoc "api_key" (headers req) = Some wk).
Proof.
  unfold constructor. split; intros Hwk; rewrite Hwk; cbn [negb].
  - reflexivity.
  - eexists. split; [reflexivity|]. split; [reflexivity|].
    intros h w Hs req cbs cb Hin.
    pose proof (steps_config _ _ Hs) as (Hk & _).
    assert (Hkeyed : requests_keyed w).
    { eapply steps_keyed; [exact Hs|]. intros ? ? ? []. }
    rewrite (Hkeyed req cbs cb Hin), Hk. reflexivity.
Qed.

(** ** The flush triggers of [enqueue] *)

Lemma pushed_nonempty l cb c : queue (pushed l cb c) <> [].
Proof. cbn. destruct (queue c); discriminate. Qed.

(** The run of the first enqueue, lines 128-134 and the flush they call. *)
Lemma enqueue_first_run E ty msg cb w w' :
  enable (this w) = true ->
  flushed (this w) = false ->
  enqueue E ty msg cb w = Ok (tt, w') ->
  let q := queue (this w)
             ++ [{| message := VRef (length (heap w));
                    callback := default noop cb |}] in
  let n := Z.to_nat (flushAt (this w)) in
  flushed (this w') = true
  /\ queue (this w') = drop n q
  /\ timer (this w') = None
  /\ exists req,
       trace w' = trace w ++ clear_effects (timer (this w))
                    ++ [Axios req (map callback (take n q)) noop]
       /\ batch (data req) = map message (take n q).
Proof.
  intros He Hf H q n.
  destruct (enqueue_enabled E ty msg cb w w' He H) as (pf & cs1 & cs2 & Ht & _).
  rewrite flush_triggers_first in Ht by exact Hf.
  rewrite flush_nonempty in Ht by (try exact He; apply pushed_nonempty).
  inversion Ht; subst w'; clear Ht.
  cbn [this trace set_flushed with_queue with_timer with_flushed pushed
       flushed queue timer flushAt].
  repeat split. eexists. split; reflexivity.
Qed.

(** C5: on an enabled client that has not flushed yet, so on the first
    enqueue after construction, [enqueue] sets the flag and flushes within
    the call, whatever the queue length and [flushAt] are: the front of
    the queue leaves in a request, and no timer is armed or left pending. *)
Theorem first_enqueue_flushes E ty msg cb w w' :
  enable (this w) = true ->
  flushed (this w) = false ->
  enqueue E ty msg cb w = Ok (tt, w') ->
  let q := queue (this w)
             ++ [{| message := VRef (length (heap w));
                    callback := default noop cb |}] in
  let n := Z.to_nat (flushAt (this w)) in
  flushed (this w') = true
  /\ queue (this w') = drop n q
  /\ timer (this w') = None
  /\ exists req,
       trace w' = trace w ++ clear_effects (timer (this w))
                    ++ [Axios req (map callback (take n q)) noop]
       /\ batch (data req) = map message (take n q).
Proof. apply enqueue_first_run. Qed.

(** C9: on an enabled client that has flushed before, with a truthy
    [flushInterval], a timer is pending when [enqueue] returns. When the
    size test of that call flushes, the flush clears the timer and the
    same call arms a new one right after the request. *)
Theorem later_enqueue_leaves_timer E ty msg cb w w' :
  enable (this w) = true ->
  flushed (this w) = true ->
  flushInterval (this w) <> 0 ->
  enqueue E ty msg cb w = Ok (tt, w') ->
  is_Some (timer (this w'))
  /\ (Z.of_nat (length (queue (this w)) + 1) >= flushAt (this w) ->
      timer (this w') = Some (handles w)
      /\ exists req cbs,
           trace w' = trace w ++ clear_effects (timer (this w))
                        ++ [Axios req cbs noop;
                            SetTimeout (handles w) (flushInterval (this w))]).
Proof.
  intros He Hf Hi H.
  destruct (enqueue_enabled E ty msg cb w w' He H) as (pf & cs1 & cs2 & Ht & _).
  rewrite flush_triggers_later in Ht by exact Hf.
  cbn [this pushed with_queue queue flushAt] in Ht.
  rewrite length_app in Ht. cbn [length] in Ht.
  destruct (Z.of_nat (length (queue (this w)) + 1) >=? flushAt (this w)) eqn:Hsz.
  - rewrite flush_nonempty in Ht by (try exact He; apply pushed_nonempty).
    inversion Ht; subst w'; clear Ht.
    unfold arm.
    cbn [this trace heap handles with_queue with_timer pushed flushInterval
         timer queue flushAt].
    destruct (flushInterval (this w) =? 0) eqn:E0; [apply Z.eqb_eq in E0; lia|].
    cbn. split; [eexists; reflexivity|].
    intros _. split; [reflexivity|].
    do 2 eexists. rewrite <- !app_assoc. reflexivity.
  - inversion Ht; subst w'; clear Ht. split.
    + apply arm_pending. exact Hi.
    + intros Hge. rewrite Z.geb_leb in Hsz. apply Z.leb_gt in Hsz. lia.
Qed.

(** C2 (as amended): on an enabled client [enqueue] evaluates the flush
    triggers as follows. Once the client has flushed before, the size test
    and then the timer test are both evaluated, whatever the size test
    did: a timer is armed exactly when [flushInterval] is truthy and none
    is pending after the size test. On the first enqueue the call flushes
    and returns at once: the other tests are skipped and no timer is
    armed. *)
Theorem enqueue_trigger_evaluation E ty msg cb w w' :
  enable (this w) = true ->
  enqueue E ty msg cb w = Ok (tt, w') ->
  let c := this w in
  let q := queue c ++ [{| message := VRef (length (heap w));
                          callback := default noop cb |}] in
  let n := Z.to_nat (flushAt c) in
  flushed (this w') = true
  /\ if flushed c then
       let size := Z.of_nat (length q) >=? flushAt c in
       let t1 := if size then None else timer c in
       let armed := negb (flushInterval c =? 0)
                    && negb (bool_decide (is_Some t1)) in
       queue (this w') = (if size then drop n q else q)
       /\ timer (this w') = (if armed then Some (handles w) else t1)
       /\ exists req,
            trace w'
            = trace w
                ++ (if size
                    then clear_effects (timer c)
                           ++ [Axios req (map callback (take n q)) noop]
                    else [])
                ++ (if armed
                    then [SetTimeout (handles w) (flushInterval c)]
                    else [])
     else
       queue (this w') = drop n q
       /\ timer (this w') = None
       /\ exists req,
            trace w' = trace w ++ clear_effects (timer c)
                         ++ [Axios req (map callback (take n q)) noop].
Proof.
  intros He H c q n.
  destruct (flushed c) eqn:Hf; unfold c in Hf.
  - destruct (enqueue_enabled E ty msg cb w w' He H) as (pf & cs1 & cs2 & Ht & _).
    rewrite flush_triggers_later in Ht by exact Hf.
    cbn [this pushed with_queue queue flushAt] in Ht. fold c q in Ht.
    cbv zeta.
    destruct (Z.of_nat (length q) >=? flushAt c) eqn:Hsz.
    + rewrite flush_nonempty in Ht by (try exact He; apply pushed_nonempty).
      inversion Ht; subst w'; clear Ht.
      unfold arm.
      cbn [this trace heap handles with_queue with_timer pushed flushInterval
           timer queue flushAt flushed].
      fold c q n.
      destruct (negb (flushInterval c =? 0)
                && negb (bool_decide (is_Some (@None nat))));
        cbn [this trace with_timer flushed queue timer with_queue];
        (split; [exact Hf|]); (split; [reflexivity|]); (split; [reflexivity|]);
        eexists; rewrite <- ?app_assoc, ?app_nil_r; reflexivity.
    + inversion Ht; subst w'; clear Ht.
      unfold arm.
      cbn [this trace heap handles with_queue pushed flushInterval timer].
      fold c q.
      destruct (negb (flushInterval c =? 0)
                && negb (bool_decide (is_Some (timer c))));
        cbn [this trace with_timer with_queue flushed queue timer];
        (split; [exact Hf|]); (split; [reflexivity|]); (split; [reflexivity|]);
        exists (request_for E c []); rewrite ?app_nil_r; reflexivity.
  - destruct (enqueue_first_run E ty msg cb w w' He Hf H)
      as (Hfl & Hqu & Hti & req & Htr & _).
    split; [exact Hfl|]. split; [exact Hqu|]. split; [exact Hti|].
    exists req. exact Htr.
Qed.

(** C6 (as amended): on a disabled client [enqueue] and [flush] do one
    thing only, they hand the callback to [setImmediate], which calls it
    without an error: nothing is enriched, queued, armed or sent. [track]
    does the same when the validator accepts the event; when the
    validator throws, [track] throws that error and the callback is not
    scheduled. *)
Theorem disabled_client_is_inert E ty msg cb w :
  enable (this w) = false ->
  let w' := {| heap := heap w; this := this w;
               trace := trace w ++ [SetImmediate (default noop cb)];
               handles := handles w |} in
  enqueue E ty msg cb w = Ok (tt, w')
  /\ flush E cb w = Ok (tt, w')
  /\ track E msg cb w
     = match looselyValidate E (heap w) msg (VStr "track") with
       | Some e => Throw e
       | None => Ok (tt, w')
       end
  /\ forall outcome,
       settle E (SetImmediate (default noop cb)) outcome
       = [Invoke (default noop cb) None None].
Proof.
  intros He w'. repeat split.
  - apply enqueue_disabled. exact He.
  - apply flush_disabled. exact He.
  - rewrite track_unfold, enqueue_disabled by exact He. reflexivity.
Qed.

(** ** The enriched record *)

Lemma stored_more (w w' : World) (r : value) :
  queue (this w') = queue (this w) ->
  (exists more, trace w' = trace w ++ more) ->
  stored w r -> stored w' r.
Proof.
  intros Hq [more Ht] [Hin|(req & cbs & cb & Hin & Hb)].
  - left. rewrite Hq. exact Hin.
  - right. exists req, cbs, cb. split; [|exact Hb].
    rewrite Ht. apply in_or_app. left. exact Hin.
Qed.

Lemma flush_stored E cb w w' r :
  flush E cb w = Ok (tt, w') -> stored w r -> stored w' r.
Proof.
  intros H Hs. destruct (enable (this w)) eqn:He.
  - destruct (queue (this w)) as [|e q] eqn:Hq.
    + rewrite flush_empty in H by assumption. inversion H; subst w'; clear H.
      eapply stored_more; [| |exact Hs]; [reflexivity|eexists; reflexivity].
    + rewrite flush_nonempty in H by (try assumption; congruence).
      inversion H; subst w'; clear H.
      destruct Hs as [Hin|(req & cbs & cb0 & Hin & Hb)].
      * rewrite <- (take_drop (Z.to_nat (flushAt (this w))) (queue (this w))) in Hin.
        rewrite map_app in Hin. apply in_app_or in Hin.
        destruct Hin as [Hin|Hin].
        -- right. do 3 eexists. cbn [trace]. split.
           ++ apply in_or_app. right. apply in_or_app. right. left. reflexivity.
           ++ exact Hin.
        -- left. exact Hin.
      * right. exists req, cbs, cb0. split; [|exact Hb].
        cbn [trace]. apply in_or_app. left. exact Hin.
  - rewrite flush_disabled in H by assumption. inversion H; subst w'; clear H.
    eapply stored_more; [| |exact Hs]; [reflexivity|eexists; reflexivity].
Qed.

Lemma arm_stored (w : World) (r : value) : stored w r -> stored (arm w) r.
Proof.
  unfold arm.
  destruct (negb (flushInterval (this w) =? 0)
            && negb (bool_decide (is_Some (timer (this w))))); [|tauto].
  apply stored_more; [reflexivity|eexists; reflexivity].
Qed.

Lemma flush_triggers_stored E w w' r :
  flush_triggers E w = Ok (tt, w') -> stored w r -> stored w' r.
Proof.
  intros H Hs. apply flush_triggers_inv in H.
  destruct H as [[_ H]|[_ (w1 & -> & H)]].
  - eapply flush_stored; [exact H|].
    eapply stored_more; [| |exact Hs]; [reflexivity|exists []; symmetry; apply app_nil_r].
  - apply arm_stored.
    destruct (Z.of_nat (length (queue (this w))) >=? flushAt (this w)).
    + eapply flush_stored; eassumption.
    + subst w1. exact Hs.
Qed.


Lemma field_copy (h : Heap) (msg : value) (k : string) :
  k <> "__proto__" ->
  unique_keys (own_props h msg) ->
  default VUndef (assoc k (assign [] (own_props h msg))) = field h msg k.
Proof.
  intros Hp Hu. unfold field. rewrite assign_nil by assumption. reflexivity.
Qed.

(** The enriched record after a run of [enqueue] on an enabled client
    with a closed store: where the four new objects are and what they
    hold. *)
Lemma enqueue_enriched E ty msg cb w w' :
  enable (this w) = true ->
  closed (heap w) = true ->
  unique_keys (own_props (heap w) msg) ->
  enqueue E ty msg cb w = Ok (tt, w') ->
  let h := heap w in
  let m := length h in
  exists pf,
    heap w'
    = h ++ [CObj pf; CObj library_props;
            CObj (assign [("library", VRef (m + 1)%nat)]
                    (own_props h (field h msg "context")));
            CObj (assign [("nodeVersion", VStr (nodeVersion E))]
                    (own_props h (field h msg "_metadata")))]
    /\ stored w' (VRef m)
    /\ assoc "type" pf = Some ty
    /\ assoc "context" pf = Some (VRef (m + 2)%nat)
    /\ assoc "_metadata" pf = Some (VRef (m + 3)%nat)
    /\ forall k, k = "anonymousId" \/ k = "userId" ->
       let v := field h msg k in
       if truthy v && negb (isString v)
       then exists cs o, JSON_stringify E (h ++ cs) v = inr o
                         /\ default VUndef (assoc k pf) = text_value o
       else default VUndef (assoc k pf) = v.
Proof.
  intros He Hc Hu H h m.
  destruct (enqueue_enabled E ty msg cb w w' He H)
    as (pf & cs1 & cs2 & Ht & Hty & Hctx & Hmeta & Ha & Hb).
  fold h in Ht, Ha, Hb. fold m in Ht, Hctx, Hmeta.
  rewrite !field_copy in Ht by (try exact Hu; discriminate).
  rewrite !own_props_app in Ht by (apply closed_own_props; exact Hc).
  exists pf. split; [|split].
  - apply flush_triggers_heap in Ht. exact Ht.
  - eapply flush_triggers_stored; [exact Ht|].
    left. cbn [this pushed with_queue queue]. rewrite map_app.
    apply in_or_app. right. left. reflexivity.
  - split; [exact Hty|]. split; [exact Hctx|]. split; [exact Hmeta|].
    assert (Hk : forall k, k <> "__proto__" ->
                 coerced E h (assign [] (own_props h msg)) pf k ->
                 let v := field h msg k in
                 if truthy v && negb (isString v)
                 then exists cs o, JSON_stringify E (h ++ cs) v = inr o
                        /\ default VUndef (assoc k pf) = text_value o
                 else default VUndef (assoc k pf) = v).
    { intros k Hp Hco. unfold coerced in Hco. cbv zeta in *.
      rewrite field_copy in Hco by assumption.
      destruct (truthy (field h msg k) && negb (isString (field h msg k))).
      - destruct Hco as (cs & o & Hs & Hpf).
        exists cs, o. split; [exact Hs|]. rewrite Hpf. reflexivity.
      - rewrite Hco. apply field_copy; assumption. }
    intros k [->| ->]; apply Hk; (assumption || discriminate).
Qed.

(** C1 (as amended): for an event accepted by [enqueue] on an enabled
    client, an [anonymousId] or [userId] that is truthy and not text is
    replaced, in the record stored, by what [JSON.stringify] returns for
    it; any other value of the field ([undefined], [null], [0], [false],
    a text) is kept as it is. So in every stored record each of the two
    fields is text whenever it is truthy. [JSON.stringify] is the one of
    the run time, taken to look only at what its argument reaches; the
    store is taken well formed, as a JavaScript store is: no reference
    points outside it and an object has each key once. The event is
    plain data: it has no property [__proto__] of its own, through which
    its copy would inherit. *)
Theorem enqueue_coerces_truthy_ids E ty msg cb w w' k :
  local_stringify E ->
  enable (this w) = true ->
  closed (heap w) = true ->
  unique_keys (own_props (heap w) msg) ->
  assoc "__proto__" (own_props (heap w) msg) = None ->
  k = "anonymousId" \/ k = "userId" ->
  enqueue E ty msg cb w = Ok (tt, w') ->
  let h := heap w in
  let m := length h in
  let v := field h msg k in
  stored w' (VRef m)
  /\ (if truthy v && negb (isString v)
      then exists o, JSON_stringify E h v = inr o
                     /\ get_prop (heap w') m k = text_value o
      else get_prop (heap w') m k = v)
  /\ (truthy (get_prop (heap w') m k) = true ->
      isString (get_prop (heap w') m k) = true).
Proof.
  intros Hlocal He Hc Hu _ Hk H h m v.
  destruct (enqueue_enriched E ty msg cb w w' He Hc Hu H)
    as (pf & Hh & Hst & _ & _ & _ & Hco).
  fold h m in Hh, Hst, Hco. specialize (Hco k Hk). cbv zeta in Hco. fold v in Hco.
  rewrite Hh. unfold m. rewrite get_prop_fresh.
  split; [exact Hst|].
  destruct (truthy v && negb (isString v)) eqn:Hcond.
  - destruct Hco as (cs & o & Hs & Hpf).
    rewrite Hlocal in Hs by (try exact Hc; apply closed_own_props; exact Hc).
    split; [exists o; split; assumption|].
    rewrite Hpf. destruct o; [reflexivity|discriminate].
  - split; [exact Hco|]. rewrite Hco. intros Htr. rewrite Htr in Hcond.
    cbn [andb] in Hcond. apply negb_false_iff in Hcond. exact Hcond.
Qed.


(** ** Facts of the session *)

Lemma distinct_unique (ps : props) :
  distinct (map fst ps) = true -> unique_keys ps.
Proof.
  unfold unique_keys. induction (map fst ps) as [|k ks IH]; intros Hd.
  - constructor.
  - cbn [distinct] in Hd. apply andb_true_iff in Hd. destruct Hd as [Hk Hd].
    constructor; [|apply IH; exact Hd].
    intros Hin. apply list_elem_of_In in Hin.
    apply negb_true_iff in Hk.
    assert (existsb (String.eqb k) ks = true); [|congruence].
    apply existsb_exists. exists k. split; [exact Hin|apply String.eqb_refl].
Qed.

Lemma demo_constructed :
  constructor demo_env (VStr "write-key") None = Ok demo_client.
Proof. reflexivity. Qed.

Lemma demo_constructed_off :
  constructor demo_env (VStr "write-key") (Some demo_options_off)
  = Ok demo_client_off.
Proof. reflexivity. Qed.

Lemma demo_run1 :
  enqueue demo_env (VStr "track") (VRef 0%nat) (Some (Fn 1)) demo_w0
  = Ok (tt, demo_w1).
Proof. vm_compute. reflexivity. Qed.

Lemma demo_run2 :
  enqueue demo_env (VStr "track") (VRef 0%nat) (Some (Fn 2)) demo_w1
  = Ok (tt, demo_w2).
Proof. vm_compute. reflexivity. Qed.

Lemma demo_steps : steps (boot demo_store demo_client) demo_w2.
Proof.
  eapply steps_next; [eapply steps_next; [apply steps_refl|]|].
  - eapply step_enqueue. exact demo_run1.
  - eapply step_enqueue. exact demo_run2.
Qed.

Lemma demo_local : local_stringify demo_env.
Proof. intros h cs v Hc Hv. apply ref_stringify_app; assumption. Qed.

Lemma demo_unique : unique_keys (own_props (heap demo_w0) (VRef 0%nat)).
Proof. apply distinct_unique. reflexivity. Qed.



(** ** The theorems at work on the session *)

(** The flush of three waiting records with [flushAt] 2: the two oldest
    leave, the third stays. *)
Lemma flush_takes_front_witness :
  exists w' req,
    flush demo_env (Some (Fn 9)) demo_w_backlog = Ok (tt, w')
    /\ batch (data req) = [VRef 2%nat; VRef 6%nat]
    /\ map callback (queue (this w')) = [Fn 3]
    /\ Z.of_nat (length (batch (data req))) = Z.min 3 2.
Proof.
  assert (Hq : queue (this demo_w_backlog) <> []) by discriminate.
  assert (Hfa : 1 <= flushAt (this demo_w_backlog)) by (cbn; lia).
  destruct (flush_takes_front demo_env (Some (Fn 9)) demo_w_backlog
              eq_refl Hq Hfa)
    as (w' & req & Hrun & _ & Hbatch & Hqueue & _ & Hlen & _).
  exists w', req. split; [exact Hrun|].
  split; [exact Hbatch|]. split; [rewrite Hqueue; reflexivity|exact Hlen].
Defined.


Lemma first_enqueue_flushes_witness :
  flushed (this demo_w1) = true
  /\ queue (this demo_w1) = []
  /\ timer (this demo_w1) = None.
Proof.
  destruct (first_enqueue_flushes demo_env (VStr "track") (VRef 0%nat)
              (Some (Fn 1)) demo_w0 demo_w1 eq_refl eq_refl demo_run1)
    as (Hf & Hq & Ht & _).
  split; [exact Hf|]. split; [exact Hq|exact Ht].
Defined.

Lemma later_enqueue_leaves_timer_witness : is_Some (timer (this demo_w2)).
Proof.
  assert (Hi : flushInterval (this demo_w1) <> 0) by discriminate.
  exact (proj1 (later_enqueue_leaves_timer demo_env (VStr "track") (VRef 0%nat)
                  (Some (Fn 2)) demo_w1 demo_w2 eq_refl eq_refl Hi demo_run2)).
Defined.

Lemma enqueue_trigger_evaluation_witness :
  flushed (this demo_w2) = true
  /\ queue (this demo_w2)
     = [{| message := VRef (length (heap demo_w1)); callback := Fn 2 |}]
  /\ timer (this demo_w2) = Some (handles demo_w1).
Proof.
  destruct (enqueue_trigger_evaluation demo_env (VStr "track") (VRef 0%nat)
              (Some (Fn 2)) demo_w1 demo_w2 eq_refl demo_run2)
    as (Hf & Hq & Ht & _).
  split; [exact Hf|]. split; [exact Hq|exact Ht].
Defined.

Lemma disabled_client_is_inert_witness :
  enqueue demo_env (VStr "track") (VRef 0%nat) (Some (Fn 1)) demo_w_off
  = Ok (tt, {| heap := demo_store; this := demo_client_off;
               trace := [SetImmediate (Fn 1)]; handles := 0 |}).
Proof.
  exact (proj1 (disabled_client_is_inert demo_env (VStr "track") (VRef 0%nat)
                  (Some (Fn 1)) demo_w_off eq_refl)).
Defined.

(** The numeric [userId] 42 is stored as the text [JSON.stringify]
    returns for it. *)
Lemma enqueue_coerces_truthy_ids_witness :
  stored demo_w1 (VRef 2%nat)
  /\ (exists o, JSON_stringify demo_env demo_store (VNum 42) = inr o
                /\ get_prop (heap demo_w1) 2 "userId" = text_value o)
  /\ isString (get_prop (heap demo_w1) 2 "userId") = true.
Proof.
  destruct (enqueue_coerces_truthy_ids demo_env (VStr "track") (VRef 0%nat)
              (Some (Fn 1)) demo_w0 demo_w1 "userId"
              demo_local eq_refl eq_refl demo_unique eq_refl
              (or_intror eq_refl) demo_run1)
    as (Hst & Hco & Htext).
  split; [exact Hst|]. split; [exact Hco|].
  apply Htext. reflexivity.
Defined.


(** ** Where the code departs from the specification *)

(** C1, as stated, fails: an [anonymousId] that is [0] is present and is
    not text, yet the stored record keeps the number [0], not the text
    [JSON.stringify] gives for it. *)
Lemma falsy_id_is_kept :
  enable (this demo_w0) = true
  /\ enqueue demo_env (VStr "track") (VRef 0%nat) (Some (Fn 1)) demo_w0
     = Ok (tt, demo_w1)
  /\ field (heap demo_w0) (VRef 0%nat) "anonymousId" = VNum 0
  /\ JSON_stringify demo_env (heap demo_w0) (VNum 0) = inr (Some "0")
  /\ stored demo_w1 (VRef 2%nat)
  /\ get_prop (heap demo_w1) 2 "anonymousId" = VNum 0
  /\ isString (get_prop (heap demo_w1) 2 "anonymousId") = false.
Proof.
  split; [reflexivity|]. split; [exact demo_run1|].
  split; [reflexivity|]. split; [reflexivity|].
  split; [|split; reflexivity].
  unfold stored, demo_w1. cbn [trace]. right. do 3 eexists.
  split; [left; reflexivity|]. cbn [data batch]. left. reflexivity.
Qed.

(** C2, as stated, fails: on the first enqueue of a fresh client whose
    [flushInterval] is 10000, no timer is pending when the call returns
    and none was armed. *)
Lemma first_enqueue_arms_no_timer :
  constructor demo_env (VStr "write-key") None = Ok demo_client
  /\ enqueue demo_env (VStr "track") (VRef 0%nat) (Some (Fn 1))
       (boot demo_store demo_client)
     = Ok (tt, demo_w1)
  /\ flushInterval (this demo_w1) = 10000
  /\ timer (this demo_w1) = None
  /\ forall handle delay, ~ In (SetTimeout handle delay) (trace demo_w1).
Proof.
  split; [reflexivity|]. split; [exact demo_run1|].
  split; [reflexivity|]. split; [reflexivity|].
  intros handle delay [Hin|[]]. discriminate Hin.
Qed.


(** C7, as stated, fails: a request that timed out is a network-level
    failure without response, and so is a request cancelled before it got
    an error code; the classifier retries neither, whatever the services
    are. *)
Lemma timed_out_request_not_retried :
  response demo_timed_out = None
  /\ code demo_timed_out = Some "ECONNABORTED"
  /\ _isErrorRetryable demo_env demo_timed_out = false
  /\ (forall E, _isErrorRetryable E demo_timed_out = false)
  /\ (forall E, _isErrorRetryable E {| code := None; response := None |}
                = false).
Proof.
  split; [reflexivity|]. split; [reflexivity|]. split; [reflexivity|].
  split; intros E; reflexivity.
Qed.

(** C6, as stated, fails for [track]: on a disabled client an event the
    validator rejects makes [track] throw, and the callback is never
    handed to [setImmediate]. *)
Lemma disabled_track_throws :
  constructor demo_env (VStr "write-key") (Some demo_options_off)
  = Ok demo_client_off
  /\ enable (this demo_w_off) = false
  /\ track demo_env (VRef 1%nat) (Some (Fn 1)) demo_w_off
     = Throw demo_identity_error.
Proof. split; [reflexivity|]. split; reflexivity. Qed.

(** * Further properties of the client *)

(** ** The invariant of a session *)

Lemma delivered_app (t1 t2 : list Effect) :
  delivered (t1 ++ t2) = delivered t1 ++ delivered t2.
Proof.
  induction t1 as [|e t1 IH]; [reflexivity|].
  destruct e; cbn [app delivered]; rewrite IH; [reflexivity..| ].
  rewrite app_assoc. reflexivity.
Qed.

Lemma pending_timers_snoc (t : list Effect) (e : Effect) :
  pending_timers (t ++ [e]) = timer_effect (pending_timers t) e.
Proof. unfold pending_timers. rewrite fold_left_app. reflexivity. Qed.

Lemma request_ok_config (c c' : TheAnalyticsAPI) (e : Effect) :
  same_config c c' -> request_ok c e -> request_ok c' e.
Proof.
  intros (Hwk & Hho & Hti & Hfa & _ & _).
  destruct e as [| | |req cbs cb]; try exact id.
  intros (E & items & -> & -> & H1 & H2).
  exists E, items. split; [|split; [reflexivity|split; [exact H1|lia]]].
  unfold request_for. rewrite Hwk, Hho, Hti. reflexivity.
Qed.

Lemma boot_inv E wk options c h :
  constructor E wk options = Ok c -> session_inv (boot h c).
Proof.
  intros Hc. pose proof (constructor_flushAt _ _ _ _ Hc) as Hfa.
  unfold constructor in Hc. destruct (negb (truthy wk)); [discriminate|].
  inversion Hc; subst c; clear Hc. unfold session_inv. cbn.
  cbn in Hfa.
  split; [exact Hfa|]. split.
  { unfold num_or. destruct (opt_flushInterval (default no_options options)) as [n|]; [|lia].
    destruct (n =? 0) eqn:E0; [lia|]. apply Z.eqb_neq in E0. exact E0. }
  split; [lia|]. split; [congruence|]. split; [auto|].
  split; [intros _; split; [reflexivity|constructor]|].
  split; [reflexivity|constructor].
Qed.

Lemma Forall_snoc {A : Type} (P : A -> Prop) (l : list A) (x : A) :
  Forall P l -> P x -> Forall P (l ++ [x]).
Proof. intros Hl Hx. apply Forall_app. split; [exact Hl|]. constructor; [exact Hx|constructor]. Qed.

Lemma clear_pending (t : list Effect) (o : option nat) :
  pending_timers t = option_list o ->
  pending_timers (t ++ clear_effects o) = [].
Proof.
  intros Hp. destruct o as [handle|]; cbn [clear_effects].
  - rewrite pending_timers_snoc, Hp. cbn. rewrite Nat.eqb_refl. reflexivity.
  - rewrite app_nil_r. exact Hp.
Qed.

Lemma clear_delivered (t : list Effect) (o : option nat) :
  delivered (t ++ clear_effects o) = delivered t.
Proof.
  rewrite delivered_app. destruct o; cbn; apply app_nil_r.
Qed.

Lemma clear_request_ok (c : TheAnalyticsAPI) (t : list Effect) (o : option nat) :
  Forall (request_ok c) t -> Forall (request_ok c) (t ++ clear_effects o).
Proof.
  intros Ht. apply Forall_app. split; [exact Ht|].
  destruct o; cbn; repeat constructor.
Qed.

Lemma take_all {A : Type} (fa : Z) (q : list A) :
  Z.of_nat (length q) <= fa ->
  take (Z.to_nat fa) q = q /\ drop (Z.to_nat fa) q = [].
Proof. intros Hlt. rewrite take_ge, drop_ge by lia. split; reflexivity. Qed.

Lemma session_inv_weak (w : World) : session_inv w -> session_weak w.
Proof.
  intros (Hfa & Hfi & Hlen & Htm & Hfl & Hen & Hpe & Hrq).
  unfold session_weak. cbv zeta.
  split; [exact Hfa|]. split; [exact Hfi|]. split; [lia|].
  split; [exact Hfl|]. split; [exact Hen|]. split; [exact Hpe|exact Hrq].
Qed.

Lemma flush_weak_inv E cb w w' :
  flush E cb w = Ok (tt, w') ->
  session_weak w -> (enable (this w) = false -> session_inv w) ->
  session_inv w'.
Proof.
  intros H (Hfa & Hfi & Hlen & Hfl & Hen & Hpe & Hrq) Hoff.
  destruct (enable (this w)) eqn:He.
  - assert (Hcase : queue (this w) = [] \/ queue (this w) <> [])
      by (destruct (queue (this w)); [left; reflexivity|right; discriminate]).
    destruct Hcase as [Hq|Hne].
    + rewrite flush_empty in H by assumption. inversion H; subst w'; clear H.
      unfold session_inv.
      cbn [this trace with_timer flushAt flushInterval queue timer flushed enable].
      rewrite Hq, He.
      split; [exact Hfa|]. split; [exact Hfi|]. split; [cbn; lia|].
      split; [congruence|]. split.
      { intros Hf. destruct (Hfl Hf) as (_ & _ & Hd).
        split; [reflexivity|]. split; [reflexivity|].
        rewrite app_assoc, delivered_app, clear_delivered, Hd. reflexivity. }
      split; [discriminate|]. split.
      { rewrite app_assoc, pending_timers_snoc, clear_pending by exact Hpe.
        reflexivity. }
      rewrite app_assoc. apply Forall_snoc; [|exact I].
      apply clear_request_ok.
      eapply Forall_impl; [exact Hrq|]. intros x. apply request_ok_config.
      repeat split.
    + rewrite flush_nonempty in H by assumption.
      inversion H; subst w'; clear H.
      destruct (take_all (flushAt (this w)) (queue (this w)) Hlen) as [Htake Hdrop].
      rewrite Htake, Hdrop.
      assert (Hflushed : flushed (this w) = true).
      { destruct (flushed (this w)); [reflexivity|].
        destruct (Hfl eq_refl) as (Hq0 & _). congruence. }
      unfold session_inv.
      cbn [this trace with_timer with_queue flushAt flushInterval queue timer
           flushed enable].
      rewrite Hflushed, He.
      split; [exact Hfa|]. split; [exact Hfi|]. split; [cbn; lia|].
      split; [congruence|]. split; [discriminate|]. split; [discriminate|].
      split.
      { rewrite app_assoc, pending_timers_snoc, clear_pending by exact Hpe.
        reflexivity. }
      rewrite app_assoc. apply Forall_snoc.
      * apply clear_request_ok.
        eapply Forall_impl; [exact Hrq|]. intros x. apply request_ok_config.
        repeat split.
      * exists E, (queue (this w)). split; [reflexivity|].
        split; [reflexivity|]. cbn [flushAt with_queue with_timer].
        destruct (queue (this w)); [congruence|]. cbn [length] in *.
        split; lia.
  - specialize (Hoff eq_refl).
    destruct Hoff as (_ & _ & Hlen' & Htm & _).
    rewrite flush_disabled in H by assumption. inversion H; subst w'; clear H.
    unfold session_inv. cbn [this trace].
    split; [exact Hfa|]. split; [exact Hfi|]. split; [exact Hlen'|].
    split; [exact Htm|]. split.
    { intros Hf. destruct (Hfl Hf) as (Hq0 & Ht0 & Hd).
      split; [exact Hq0|]. split; [exact Ht0|].
      rewrite delivered_app, Hd. reflexivity. }
    split.
    { intros _. destruct (Hen eq_refl) as (Hf & Him).
      split; [exact Hf|]. apply Forall_snoc; [exact Him|exact I]. }
    split; [rewrite pending_timers_snoc; exact Hpe|].
    apply Forall_snoc; [exact Hrq|exact I].
Qed.

Lemma flush_inv E cb w w' :
  flush E cb w = Ok (tt, w') -> session_inv w -> session_inv w'.
Proof.
  intros H Hinv. eapply flush_weak_inv; [exact H| |intros _; exact Hinv].
  apply session_inv_weak. exact Hinv.
Qed.

Lemma bool_decide_is_Some {A : Type} (o : option A) :
  bool_decide (is_Some o) = match o with Some _ => true | None => false end.
Proof.
  destruct o.
  - apply bool_decide_eq_true. eexists. reflexivity.
  - apply bool_decide_eq_false. intros [x Hx]. discriminate.
Qed.

Lemma arm_inv (w : World) :
  session_weak w -> enable (this w) = true -> flushed (this w) = true ->
  Z.of_nat (length (queue (this w))) < flushAt (this w) ->
  session_inv (arm w).
Proof.
  intros (Hfa & Hfi & _ & Hfl & Hen & Hpe & Hrq) He Hf Hlen.
  unfold arm. rewrite bool_decide_is_Some.
  destruct (flushInterval (this w) =? 0) eqn:E0; [apply Z.eqb_eq in E0; lia|].
  cbn [negb andb].
  destruct (timer (this w)) as [t|] eqn:Ht; cbn [negb].
  - unfold session_inv. cbv zeta. rewrite Ht, He, Hf.
    split; [exact Hfa|]. split; [exact Hfi|]. split; [exact Hlen|].
    split; [intros _; eexists; reflexivity|].
    split; [discriminate|]. split; [discriminate|].
    split; [exact Hpe|exact Hrq].
  - unfold session_inv.
    cbn [this trace with_timer flushAt flushInterval queue timer flushed enable].
    rewrite He, Hf.
    split; [exact Hfa|]. split; [exact Hfi|]. split; [exact Hlen|].
    split; [intros _; eexists; reflexivity|].
    split; [discriminate|]. split; [discriminate|].
    split; [rewrite pending_timers_snoc, Hpe; reflexivity|].
    apply Forall_snoc; [|exact I].
    eapply Forall_impl; [exact Hrq|]. intros x. apply request_ok_config.
    repeat split.
Qed.

(** The state in the middle of [enqueue], after the push. *)
Lemma pushed_weak h1 l cb w :
  session_inv w -> enable (this w) = true ->
  session_weak {| heap := h1; this := with_flushed true (pushed l cb (this w));
                  trace := trace w; handles := handles w |}.
Proof.
  intros (Hfa & Hfi & Hlen & Htm & Hfl & Hen & Hpe & Hrq) He.
  unfold session_weak.
  cbn [this trace pushed with_queue with_flushed flushAt flushInterval queue
       timer flushed enable].
  rewrite He, length_app. cbn [length].
  split; [exact Hfa|]. split; [exact Hfi|]. split; [lia|].
  split; [discriminate|]. split; [discriminate|].
  split; [exact Hpe|].
  eapply Forall_impl; [exact Hrq|]. intros x. apply request_ok_config.
  repeat split.
Qed.

Lemma with_flushed_true (c : TheAnalyticsAPI) :
  flushed c = true -> with_flushed true c = c.
Proof. destruct c; cbn; intros ->; reflexivity. Qed.

Lemma flush_flushed E cb w w' :
  flush E cb w = Ok (tt, w') -> flushed (this w') = flushed (this w).
Proof.
  intros H. destruct (enable (this w)) eqn:He.
  - destruct (queue (this w)) as [|e q] eqn:Hq.
    + rewrite flush_empty in H by assumption. inversion H. reflexivity.
    + rewrite flush_nonempty in H by (try assumption; congruence).
      inversion H. reflexivity.
  - rewrite flush_disabled in H by assumption. inversion H. reflexivity.
Qed.

Lemma pushed_triggers_inv E h1 l cb w w' :
  session_inv w -> enable (this w) = true ->
  flush_triggers E {| heap := h1; this := pushed l cb (this w);
                      trace := trace w; handles := handles w |}
  = Ok (tt, w') ->
  session_inv w'.
Proof.
  intros Hinv He H.
  pose proof (pushed_weak h1 l cb w Hinv He) as Hweak.
  apply flush_triggers_inv in H.
  destruct H as [[Hf H]|[Hf (w1 & -> & H)]];
    cbn [this pushed with_queue flushed] in Hf.
  - unfold set_flushed in H. cbn [heap this trace handles] in H.
    eapply flush_weak_inv; [exact H|exact Hweak|].
    cbn [this with_flushed enable pushed with_queue]. congruence.
  - rewrite <- (with_flushed_true (pushed l cb (this w))) in H
      by (cbn [pushed with_queue flushed]; exact Hf).
    cbn [this] in H.
    destruct (Z.of_nat (length (queue (with_flushed true (pushed l cb (this w)))))
              >=? flushAt (with_flushed true (pushed l cb (this w)))) eqn:Hsz.
    + assert (Hpost : session_inv w1).
      { eapply flush_weak_inv; [exact H|exact Hweak|].
        cbn [this with_flushed enable pushed with_queue]. congruence. }
      pose proof (flush_config _ _ _ _ H) as (_ & _ & _ & _ & _ & Hen').
      pose proof (flush_flushed _ _ _ _ H) as Hfl'.
      cbn [this with_flushed enable flushed pushed with_queue] in Hen', Hfl'.
      apply arm_inv.
      * apply session_inv_weak. exact Hpost.
      * congruence.
      * exact Hfl'.
      * destruct Hpost as (_ & _ & Hlen & _). exact Hlen.
    + subst w1. rewrite Z.geb_leb in Hsz. apply Z.leb_gt in Hsz.
      apply arm_inv; [exact Hweak| | |exact Hsz].
      * cbn [this with_flushed enable pushed with_queue]. exact He.
      * reflexivity.
Qed.

Lemma enqueue_inv E ty msg cb w w' :
  enqueue E ty msg cb w = Ok (tt, w') -> session_inv w -> session_inv w'.
Proof.
  intros H Hinv. destruct (enable (this w)) eqn:He.
  - destruct (enqueue_enabled E ty msg cb w w' He H) as (pf & cs1 & cs2 & Ht & _).
    eapply pushed_triggers_inv; [exact Hinv|exact He|exact Ht].
  - rewrite enqueue_disabled in H by exact He.
    rewrite <- (flush_disabled E cb w He) in H.
    eapply flush_inv; eassumption.
Qed.

Lemma step_inv w w' : step w w' -> session_inv w -> session_inv w'.
Proof.
  intros [E m cb w1 w2 H|E ty m cb w1 w2 H|E cb w1 w2 H|E t w1 w2 _ H|h w1 _] Hinv.
  - apply track_enqueue in H. eapply enqueue_inv; eassumption.
  - eapply enqueue_inv; eassumption.
  - eapply flush_inv; eassumption.
  - eapply flush_inv; eassumption.
  - exact Hinv.
Qed.

Lemma steps_inv w w' : steps w w' -> session_inv w -> session_inv w'.
Proof.
  induction 1 as [w|w1 w2 w3 _ IH Hs]; intros Hinv; [exact Hinv|].
  eapply step_inv; [exact Hs|]. apply IH. exact Hinv.
Qed.

Lemma session_reachable E wk options c h w :
  constructor E wk options = Ok c -> steps (boot h c) w -> session_inv w.
Proof.
  intros Hc Hs. eapply steps_inv; [exact Hs|]. eapply boot_inv. exact Hc.
Qed.

(** ** The order of delivery *)

Lemma flush_order E cb w w' :
  flush E cb w = Ok (tt, w') ->
  delivered (trace w') ++ queued w' = delivered (trace w) ++ queued w.
Proof.
  intros H. unfold queued. destruct (enable (this w)) eqn:He.
  - assert (Hcase : queue (this w) = [] \/ queue (this w) <> [])
      by (destruct (queue (this w)); [left; reflexivity|right; discriminate]).
    destruct Hcase as [Hq|Hne].
    + rewrite flush_empty in H by assumption. inversion H; subst w'; clear H.
      cbn [trace this with_timer queue].
      rewrite app_assoc, delivered_app, clear_delivered. cbn [delivered].
      rewrite app_nil_r. reflexivity.
    + rewrite flush_nonempty in H by assumption.
      inversion H; subst w'; clear H.
      cbn [trace this with_timer with_queue queue].
      rewrite app_assoc, delivered_app, clear_delivered.
      cbn [delivered request_for data batch]. rewrite app_nil_r.
      rewrite <- app_assoc, <- map_app, take_drop. reflexivity.
  - rewrite flush_disabled in H by assumption. inversion H; subst w'; clear H.
    cbn [trace this]. rewrite delivered_app. cbn [delivered].
    rewrite app_nil_r. reflexivity.
Qed.

Lemma arm_order (w : World) :
  delivered (trace (arm w)) ++ queued (arm w) = delivered (trace w) ++ queued w.
Proof.
  unfold arm, queued.
  destruct (negb (flushInterval (this w) =? 0)
            && negb (bool_decide (is_Some (timer (this w))))); [|reflexivity].
  cbn [trace this with_timer queue]. rewrite delivered_app. cbn [delivered].
  rewrite app_nil_r. reflexivity.
Qed.

Lemma flush_triggers_order E w w' :
  flush_triggers E w = Ok (tt, w') ->
  delivered (trace w') ++ queued w' = delivered (trace w) ++ queued w.
Proof.
  intros H. apply flush_triggers_inv in H.
  destruct H as [[_ H]|[_ (w1 & -> & H)]].
  - apply flush_order in H. exact H.
  - rewrite arm_order.
    destruct (Z.of_nat (length (queue (this w))) >=? flushAt (this w)).
    + apply flush_order in H. exact H.
    + subst w1. reflexivity.
Qed.

(** X11: an enqueue on an enabled client adds its record, and only it,
    at the end of the line: the records sent so far followed by those
    queued are, after the call, what they were before followed by the new
    record. *)
Theorem enqueue_appends_in_order E ty msg cb w w' :
  enable (this w) = true ->
  enqueue E ty msg cb w = Ok (tt, w') ->
  delivered (trace w') ++ queued w'
  = delivered (trace w) ++ queued w ++ [VRef (length (heap w))].
Proof.
  intros He H.
  destruct (enqueue_enabled E ty msg cb w w' He H) as (pf & cs1 & cs2 & Ht & _).
  apply flush_triggers_order in Ht. rewrite Ht.
  unfold queued. cbn [trace this pushed with_queue queue].
  rewrite map_app. reflexivity.
Qed.

(** X12: a flush neither drops, repeats nor reorders a record: the
    records sent so far followed by those queued are the same before and
    after it. *)
Theorem flush_keeps_order E cb w w' :
  flush E cb w = Ok (tt, w') ->
  delivered (trace w') ++ queued w' = delivered (trace w) ++ queued w.
Proof. apply flush_order. Qed.



(** ** What holds throughout a session *)

(** X1: the options fixed at construction stay as they are. Whatever
    calls of [track], [enqueue] and [flush] follow and whichever timers
    fire, [writeKey], [host], [timeout], [flushAt], [flushInterval] and
    [enable] are those the constructor set. *)
Theorem session_config_fixed E wk options c h w :
  constructor E wk options = Ok c ->
  steps (boot h c) w ->
  writeKey (this w) = wk
  /\ host (this w) = host c
  /\ timeout (this w) = timeout c
  /\ flushAt (this w) = flushAt c
  /\ flushInterval (this w) = flushInterval c
  /\ enable (this w) = enable c.
Proof.
  intros Hc Hs. apply steps_config in Hs. cbn [boot this] in Hs.
  destruct Hs as (Hwk & Hho & Hti & Hfa & Hfi & Hen).
  assert (Hk : writeKey c = wk).
  { unfold constructor in Hc. destruct (negb (truthy wk)); [discriminate|].
    inversion Hc. reflexivity. }
  rewrite <- Hk. repeat split; assumption.
Qed.

(** X2: in every state of a constructed client [flushAt] is at least 1
    and [flushInterval] is not 0. The constructor replaces an option
    [flushInterval] of 0 by 10000 (line 41), so the options cannot switch
    the timer off. *)
Theorem session_interval_never_zero E wk options c h w :
  constructor E wk options = Ok c ->
  steps (boot h c) w ->
  1 <= flushAt (this w)
  /\ flushInterval (this w) <> 0
  /\ (opt_flushInterval (default no_options options) = Some 0 ->
      flushInterval (this w) = 10000).
Proof.
  intros Hc Hs.
  destruct (session_reachable _ _ _ _ _ _ Hc Hs) as (Hfa & Hfi & _).
  split; [exact Hfa|]. split; [exact Hfi|].
  intros H0. apply steps_config in Hs. destruct Hs as (_ & _ & _ & _ & Heq & _).
  rewrite Heq. cbn [boot this].
  unfold constructor in Hc. destruct (negb (truthy wk)); [discriminate|].
  inversion Hc. cbn [flushInterval]. rewrite H0. reflexivity.
Qed.

(** X3: between two interactions the queue of a constructed client holds
    fewer than [flushAt] entries. *)
Theorem session_queue_below_flushAt E wk options c h w :
  constructor E wk options = Ok c ->
  steps (boot h c) w ->
  Z.of_nat (length (queue (this w))) < flushAt (this w).
Proof.
  intros Hc Hs.
  destruct (session_reachable _ _ _ _ _ _ Hc Hs) as (_ & _ & Hlen & _).
  exact Hlen.
Qed.

(** X4: a flush of an enabled client with a non-empty queue, in any
    state the client can reach, finds a pending timer and clears it, sends
    the whole queue as one batch in queue order, and leaves the queue
    empty. *)
Theorem flush_drains_queue E0 wk options c h E cb w :
  constructor E0 wk options = Ok c ->
  steps (boot h c) w ->
  enable (this w) = true ->
  queue (this w) <> [] ->
  exists t w',
    timer (this w) = Some t
    /\ flush E cb w = Ok (tt, w')
    /\ queue (this w') = []
    /\ timer (this w') = None
    /\ trace w' = trace w
         ++ [ClearTimeout t;
             Axios (request_for E (this w) (queue (this w)))
                   (map callback (queue (this w))) (default noop cb)].
Proof.
  intros Hc Hs He Hq.
  destruct (session_reachable _ _ _ _ _ _ Hc Hs)
    as (_ & _ & Hlen & Htm & _).
  destruct (Htm Hq) as [t Ht].
  destruct (take_all (flushAt (this w)) (queue (this w))) as [Htake Hdrop];
    [lia|].
  exists t. eexists. split; [exact Ht|].
  split; [apply flush_nonempty; assumption|].
  cbn [this trace with_queue with_timer queue timer].
  rewrite Htake, Hdrop, Ht. repeat split.
Qed.

(** X5: whenever entries wait in the queue of a constructed client, a
    timer is pending. *)
Theorem session_queued_has_timer E wk options c h w :
  constructor E wk options = Ok c ->
  steps (boot h c) w ->
  queue (this w) <> [] ->
  is_Some (timer (this w)).
Proof.
  intros Hc Hs.
  destruct (session_reachable _ _ _ _ _ _ Hc Hs) as (_ & _ & _ & Htm & _).
  exact Htm.
Qed.

(** X6: as long as the has-flushed flag is unset, nothing is queued, no
    timer is pending and no record has been sent. *)
Theorem session_before_first_enqueue E wk options c h w :
  constructor E wk options = Ok c ->
  steps (boot h c) w ->
  flushed (this w) = false ->
  queue (this w) = [] /\ timer (this w) = None /\ delivered (trace w) = [].
Proof.
  intros Hc Hs.
  destruct (session_reachable _ _ _ _ _ _ Hc Hs) as (_ & _ & _ & _ & Hfl & _).
  exact Hfl.
Qed.

Lemma client_eq (c c' : TheAnalyticsAPI) :
  queue c = queue c' -> flushed c = flushed c' -> timer c = timer c' ->
  same_config c' c -> c = c'.
Proof.
  intros Hq Hf Ht (Hwk & Hho & Hti & Hfa & Hfi & Hen).
  destruct c, c'. cbn in *. subst. reflexivity.
Qed.

Lemma constructor_fresh E wk options c :
  constructor E wk options = Ok c ->
  queue c = [] /\ flushed c = false /\ timer c = None.
Proof.
  unfold constructor. destruct (negb (truthy wk)); [discriminate|].
  intros H. inversion H. repeat split.
Qed.

(** X7: a disabled client never changes. After any sequence of calls its
    state is the constructed one, and all it has left with the run time
    are [setImmediate] calls: no timer, no request. *)
Theorem disabled_session_inert E wk options c h w :
  constructor E wk options = Ok c ->
  enable c = false ->
  steps (boot h c) w ->
  this w = c /\ Forall is_immediate (trace w).
Proof.
  intros Hc He Hs.
  destruct (session_reachable _ _ _ _ _ _ Hc Hs)
    as (_ & _ & _ & _ & Hfl & Hen & _).
  pose proof (steps_config _ _ Hs) as Hcfg. cbn [boot this] in Hcfg.
  assert (Hena : enable (this w) = false).
  { destruct Hcfg as (_ & _ & _ & _ & _ & Hena). congruence. }
  destruct (Hen Hena) as (Hf & Him).
  destruct (Hfl Hf) as (Hq & Ht & _).
  destruct (constructor_fresh _ _ _ _ Hc) as (Hq0 & Hf0 & Ht0).
  split; [|exact Him].
  apply client_eq; [congruence|congruence|congruence|].
  destruct Hcfg as (?&?&?&?&?&?). repeat split; congruence.
Qed.

(** X8: the timers armed and not cleared since construction are exactly
    the one held in [this.timer]: at most one at any time. *)
Theorem session_one_timer E wk options c h w :
  constructor E wk options = Ok c ->
  steps (boot h c) w ->
  pending_timers (trace w) = option_list (timer (this w)).
Proof.
  intros Hc Hs.
  destruct (session_reachable _ _ _ _ _ _ Hc Hs)
    as (_ & _ & _ & _ & _ & _ & Hpe & _).
  exact Hpe.
Qed.

Lemma session_request E wk options c h w req cbs cb :
  constructor E wk options = Ok c ->
  steps (boot h c) w ->
  In (Axios req cbs cb) (trace w) ->
  exists E' items,
    req = request_for E' c items /\ cbs = map callback items
    /\ (1 <= length items)%nat /\ Z.of_nat (length items) <= flushAt c.
Proof.
  intros Hc Hs Hin.
  destruct (session_reachable _ _ _ _ _ _ Hc Hs)
    as (_ & _ & _ & _ & _ & _ & _ & Hrq).
  rewrite Forall_forall in Hrq.
  apply list_elem_of_In in Hin. specialize (Hrq _ Hin).
  apply steps_config in Hs. cbn [boot this] in Hs.
  assert (Hback : same_config (this w) c).
  { destruct Hs as (?&?&?&?&?&?). repeat split; congruence. }
  exact (request_ok_config _ _ _ Hback Hrq).
Qed.

(** X9: every request a constructed client issues carries at least one
    and at most [flushAt] records, with one entry callback per record. *)
Theorem session_batches_bounded E wk options c h w req cbs cb :
  constructor E wk options = Ok c ->
  steps (boot h c) w ->
  In (Axios req cbs cb) (trace w) ->
  (1 <= length (batch (data req)))%nat
  /\ Z.of_nat (length (batch (data req))) <= flushAt c
  /\ length cbs = length (batch (data req)).
Proof.
  intros Hc Hs Hin.
  destruct (session_request _ _ _ _ _ _ _ _ _ Hc Hs Hin)
    as (E' & items & -> & -> & H1 & H2).
  cbn [request_for data batch]. rewrite !length_map.
  repeat split; assumption.
Qed.

(** X10: every request a constructed client issues is a POST to the
    host of the options (or the default host), with its trailing slash
    removed, followed by [/api/track/events]; its headers are the user
    agent of version 1.0.8 and the write key; its two time stamps are
    dates; and it has no time-out when the [timeout] option is falsy. *)
Theorem session_wire_format E wk options c h w req cbs cb :
  constructor E wk options = Ok c ->
  steps (boot h c) w ->
  In (Axios req cbs cb) (trace w) ->
  method req = "POST"
  /\ url req = removeSlash E (text_or (opt_host (default no_options options))
                                      default_host)
               +:+ "/api/track/events"
  /\ headers req
     = [("user-agent", VStr "theanalyticsapi-client-node/1.0.8");
        ("api_key", wk)]
  /\ (exists t1 t2, timestamp (data req) = VDate t1 /\ sentAt (data req) = VDate t2)
  /\ (truthy (opt_timeout (default no_options options)) = false ->
      req_timeout req = None).
Proof.
  intros Hc Hs Hin.
  destruct (session_request _ _ _ _ _ _ _ _ _ Hc Hs Hin)
    as (E' & items & -> & _).
  unfold constructor in Hc. destruct (negb (truthy wk)); [discriminate|].
  inversion Hc; subst c; clear Hc.
  cbn [request_for method url headers data timestamp sentAt req_timeout
       host writeKey timeout].
  split; [reflexivity|]. split; [reflexivity|]. split; [reflexivity|].
  split; [do 2 eexists; split; reflexivity|].
  intros Hto. unfold or_else. rewrite Hto. reflexivity.
Qed.

(** ** The fields [enqueue] sets or leaves *)

Lemma enqueue_enabled_defaults E ty msg cb w w' :
  enable (this w) = true ->
  enqueue E ty msg cb w = Ok (tt, w') ->
  let h := heap w in
  let p0 := assign [] (own_props h msg) in
  exists pf cs,
    flush_triggers E
      {| heap := h ++ CObj pf :: cs;
         this := pushed (length h) cb (this w);
         trace := trace w;
         handles := handles w |} = Ok (tt, w')
    /\ assoc "type" pf = Some ty
    /\ assoc "timestamp" pf
       = (if truthy (default VUndef (assoc "timestamp" p0))
          then assoc "timestamp" p0 else Some (VDate (now E)))
    /\ (if truthy (default VUndef (assoc "messageId" p0))
        then assoc "messageId" pf = assoc "messageId" p0
        else exists json,
          assoc "messageId" pf
          = Some (VStr ("node-" +:+ md5 E json +:+ "-" +:+ uuid E))).
Proof.
  destruct w as [h c t n]. cbn [heap this trace handles].
  intros He H. unfold enqueue in H. plumb H. rewrite He in H. cbn [negb] in H.
  exec H.
  all: plumb H; norm H.
  all: do 2 eexists; split; [exact H|].
  all: rewrite ?assoc_put; cbn [String.eqb Ascii.eqb Bool.eqb].
  all: repeat match goal with
       | Hb : negb (truthy ?x) = _ |- _ =>
           destruct (truthy x) eqn:?; cbn [negb] in Hb; try discriminate Hb;
           clear Hb
       end.
  all: repeat split; try reflexivity; eexists; reflexivity.
Qed.


(** X16: a [track] that returns on an enabled client went past the
    validator and is the [enqueue] of type [track]: the stored record has
    [type] "track". *)
Theorem track_stores_track_type E msg cb w w' :
  enable (this w) = true ->
  track E msg cb w = Ok (tt, w') ->
  looselyValidate E (heap w) msg (VStr "track") = None
  /\ enqueue E (VStr "track") msg cb w = Ok (tt, w')
  /\ stored w' (VRef (length (heap w)))
  /\ get_prop (heap w') (length (heap w)) "type" = VStr "track".
Proof.
  intros He H. rewrite track_unfold in H.
  destruct (looselyValidate E (heap w) msg (VStr "track")); [discriminate|].
  split; [reflexivity|]. split; [exact H|].
  destruct (enqueue_enabled_defaults E _ msg cb w w' He H)
    as (pf & cs & Ht & Hty & _).
  split.
  - eapply flush_triggers_stored; [exact Ht|].
    left. cbn [this pushed with_queue queue]. rewrite map_app.
    apply in_or_app. right. left. reflexivity.
  - apply flush_triggers_heap in Ht. cbn [heap] in Ht.
    rewrite Ht, get_prop_fresh, Hty. reflexivity.
Qed.

(** ** When [enqueue] returns *)


(** ** [flush]: the empty queue and the successful request *)

(** X19: a flush of an enabled client with an empty queue issues no
    request: it clears a pending timer, hands the callback to
    [setImmediate], which calls it without an error, and sends nothing. *)
Theorem flush_of_empty_queue E cb w :
  enable (this w) = true ->
  queue (this w) = [] ->
  exists w',
    flush E cb w = Ok (tt, w')
    /\ trace w' = trace w ++ clear_effects (timer (this w))
                    ++ [SetImmediate (default noop cb)]
    /\ queue (this w') = []
    /\ timer (this w') = None
    /\ delivered (trace w') = delivered (trace w)
    /\ forall outcome,
         settle E (SetImmediate (default noop cb)) outcome
         = [Invoke (default noop cb) None None].
Proof.
  intros He Hq. eexists. split; [apply flush_empty; assumption|].
  cbn [trace this with_timer queue timer].
  split; [reflexivity|]. split; [exact Hq|]. split; [reflexivity|].
  split; [|reflexivity].
  rewrite app_assoc, delivered_app, clear_delivered. cbn. apply app_nil_r.
Qed.

(** X20: when the request of a flush succeeds and no callback throws,
    every entry callback of the batch is called without an error, in
    queue order, then the flush callback without an error and with the
    batch. *)
Theorem flush_success_broadcast E cb w :
  enable (this w) = true ->
  queue (this w) <> [] ->
  exists w' req callbacks,
    flush E cb w = Ok (tt, w')
    /\ last (trace w') = Some (Axios req callbacks (default noop cb))
    /\ callbacks = map callback (take (Z.to_nat (flushAt (this w)))
                                      (queue (this w)))
    /\ let all := broadcast callbacks (default noop cb) (data req) None in
       (forall past c, In c all -> invoke E past c = None) ->
       settle E (Axios req callbacks (default noop cb)) None = all.
Proof.
  intros He Hq. do 3 eexists.
  split; [apply flush_nonempty; assumption|].
  cbn [trace]. rewrite app_assoc, last_snoc.
  split; [reflexivity|]. split; [reflexivity|].
  cbv zeta. intros Hall.
  cbn [settle settle_request]. unfold on_fulfilled, done, broadcast.
  rewrite call_each_all by exact Hall. reflexivity.
Qed.

(** ** The further properties at work on the session *)

Lemma demo_run0f :
  flush demo_env (Some (Fn 3)) demo_w0 = Ok (tt, demo_w0f).
Proof. vm_compute. reflexivity. Qed.

Lemma demo_run3 :
  flush demo_env (Some (Fn 9)) demo_w2 = Ok (tt, demo_w3).
Proof. vm_compute. reflexivity. Qed.

Lemma demo_run_off :
  enqueue demo_env (VStr "track") (VRef 0%nat) (Some (Fn 1)) demo_w_off
  = Ok (tt, demo_w_off1).
Proof. vm_compute. reflexivity. Qed.

Lemma demo_track1 :
  track demo_env (VRef 0%nat) (Some (Fn 1)) demo_w0 = Ok (tt, demo_w1).
Proof. vm_compute. reflexivity. Qed.

Lemma demo_steps0f : steps (boot demo_store demo_client) demo_w0f.
Proof.
  eapply steps_next; [apply steps_refl|].
  eapply step_flush. exact demo_run0f.
Qed.

Lemma demo_steps_off : steps (boot demo_store demo_client_off) demo_w_off1.
Proof.
  eapply steps_next; [apply steps_refl|].
  eapply step_enqueue. exact demo_run_off.
Qed.


Lemma session_config_fixed_witness :
  writeKey (this demo_w2) = VStr "write-key"
  /\ flushAt (this demo_w2) = flushAt demo_client
  /\ enable (this demo_w2) = enable demo_client.
Proof.
  destruct (session_config_fixed demo_env (VStr "write-key") None demo_client
              demo_store demo_w2 demo_constructed demo_steps)
    as (Hwk & _ & _ & Hfa & _ & Hen).
  split; [exact Hwk|]. split; [exact Hfa|exact Hen].
Defined.

Lemma session_interval_never_zero_witness :
  1 <= flushAt (this demo_w2) /\ flushInterval (this demo_w2) <> 0.
Proof.
  destruct (session_interval_never_zero demo_env (VStr "write-key") None
              demo_client demo_store demo_w2 demo_constructed demo_steps)
    as (Hfa & Hfi & _).
  split; [exact Hfa|exact Hfi].
Defined.

Lemma session_queue_below_flushAt_witness :
  Z.of_nat (length (queue (this demo_w2))) < flushAt (this demo_w2).
Proof.
  exact (session_queue_below_flushAt demo_env (VStr "write-key") None
           demo_client demo_store demo_w2 demo_constructed demo_steps).
Defined.

Lemma flush_drains_queue_witness :
  exists t w',
    timer (this demo_w2) = Some t
    /\ flush demo_env (Some (Fn 9)) demo_w2 = Ok (tt, w')
    /\ queue (this w') = [].
Proof.
  assert (Hq : queue (this demo_w2) <> []) by discriminate.
  destruct (flush_drains_queue demo_env (VStr "write-key") None demo_client
              demo_store demo_env (Some (Fn 9)) demo_w2
              demo_constructed demo_steps eq_refl Hq)
    as (t & w' & Ht & Hrun & Hqueue & _).
  exists t, w'. split; [exact Ht|]. split; [exact Hrun|exact Hqueue].
Defined.

Lemma session_queued_has_timer_witness : is_Some (timer (this demo_w2)).
Proof.
  assert (Hq : queue (this demo_w2) <> []) by discriminate.
  exact (session_queued_has_timer demo_env (VStr "write-key") None demo_client
           demo_store demo_w2 demo_constructed demo_steps Hq).
Defined.

(** A flush before the first enqueue leaves the client as it was. *)
Lemma session_before_first_enqueue_witness :
  queue (this demo_w0f) = [] /\ timer (this demo_w0f) = None
  /\ delivered (trace demo_w0f) = [].
Proof.
  exact (session_before_first_enqueue demo_env (VStr "write-key") None
           demo_client demo_store demo_w0f demo_constructed demo_steps0f
           eq_refl).
Defined.

Lemma disabled_session_inert_witness :
  this demo_w_off1 = demo_client_off /\ Forall is_immediate (trace demo_w_off1).
Proof.
  exact (disabled_session_inert demo_env (VStr "write-key")
           (Some demo_options_off) demo_client_off demo_store demo_w_off1
           demo_constructed_off eq_refl demo_steps_off).
Defined.

Lemma session_one_timer_witness :
  pending_timers (trace demo_w2) = option_list (timer (this demo_w2)).
Proof.
  exact (session_one_timer demo_env (VStr "write-key") None demo_client
           demo_store demo_w2 demo_constructed demo_steps).
Defined.

Lemma session_batches_bounded_witness :
  Forall (fun e => match e with
                   | Axios req cbs cb =>
                       (1 <= length (batch (data req)))%nat
                       /\ length cbs = length (batch (data req))
                   | _ => True
                   end) (trace demo_w2).
Proof.
  apply Forall_forall. intros e Hin. apply list_elem_of_In in Hin.
  destruct e as [| | |req cbs cb]; try exact I.
  destruct (session_batches_bounded demo_env (VStr "write-key") None
              demo_client demo_store demo_w2 req cbs cb
              demo_constructed demo_steps Hin)
    as (H1 & _ & H3).
  split; [exact H1|exact H3].
Defined.

Lemma session_wire_format_witness :
  Forall (fun e => match e with
                   | Axios req cbs cb =>
                       method req = "POST"
                       /\ url req = default_host +:+ "/api/track/events"
                   | _ => True
                   end) (trace demo_w2).
Proof.
  apply Forall_forall. intros e Hin. apply list_elem_of_In in Hin.
  destruct e as [| | |req cbs cb]; try exact I.
  destruct (session_wire_format demo_env (VStr "write-key") None
              demo_client demo_store demo_w2 req cbs cb
              demo_constructed demo_steps Hin)
    as (H1 & H2 & _).
  split; [exact H1|exact H2].
Defined.

Lemma enqueue_appends_in_order_witness :
  delivered (trace demo_w2) ++ queued demo_w2
  = delivered (trace demo_w1) ++ queued demo_w1
      ++ [VRef (length (heap demo_w1))].
Proof.
  exact (enqueue_appends_in_order demo_env (VStr "track") (VRef 0%nat)
           (Some (Fn 2)) demo_w1 demo_w2 eq_refl demo_run2).
Defined.

Lemma flush_keeps_order_witness :
  delivered (trace demo_w3) ++ queued demo_w3
  = delivered (trace demo_w2) ++ queued demo_w2.
Proof.
  exact (flush_keeps_order demo_env (Some (Fn 9)) demo_w2 demo_w3 demo_run3).
Defined.



Lemma track_stores_track_type_witness :
  get_prop (heap demo_w1) 2 "type" = VStr "track".
Proof.
  destruct (track_stores_track_type demo_env (VRef 0%nat) (Some (Fn 1))
              demo_w0 demo_w1 eq_refl demo_track1)
    as (_ & _ & _ & Hty).
  exact Hty.
Defined.


Lemma flush_of_empty_queue_witness :
  exists w',
    flush demo_env (Some (Fn 3)) demo_w1 = Ok (tt, w')
    /\ delivered (trace w') = delivered (trace demo_w1).
Proof.
  destruct (flush_of_empty_queue demo_env (Some (Fn 3)) demo_w1
              eq_refl eq_refl)
    as (w' & Hrun & _ & _ & _ & Hd & _).
  exists w'. split; [exact Hrun|exact Hd].
Defined.

Lemma flush_success_broadcast_witness :
  exists w' req,
    flush demo_env (Some (Fn 9)) demo_w2 = Ok (tt, w')
    /\ settle demo_env (Axios req [Fn 2] (Fn 9)) None
       = [Invoke (Fn 2) None None; Invoke (Fn 9) None (Some (data req))].
Proof.
  assert (Hq : queue (this demo_w2) <> []) by discriminate.
  destruct (flush_success_broadcast demo_env (Some (Fn 9)) demo_w2 eq_refl Hq)
    as (w' & req & callbacks & Hrun & _ & Hcbs & Hsettle).
  exists w', req. split; [exact Hrun|].
  rewrite Hcbs in Hsettle. apply Hsettle. intros past c _. reflexivity.
Defined.
